(** * rtcam: verification of [src/lib/server/process.ts]

    A shallow embedding of [ImageVideoProcessor]: the layout heuristic of
    [determineMergeDirection], the two compositing layouts
    ([mergeSideBySide], [mergeTopAndBottom]), the frame sequencing of
    [processImagesAndCreateVideo] and the ffmpeg command assembled by
    [createVideoFromImages]. *)

From Stdlib Require Import ZArith QArith Qabs SpecFloat Lia.
From Stdlib Require PrimFloat FloatOps Uint63.
From stdpp Require Import gmap strings list fin_maps pretty.

Local Open Scope Z_scope.

(** ** JavaScript numbers

    A JavaScript [number] is an IEEE-754 binary64 value.  [spec_float] with
    precision 53 and maximal exponent 1024 is that format, and the [SF*]
    operations round to nearest, ties to even, as the JavaScript operators
    do. *)

Module Number.

Definition prec : Z := 53.
Definition emax : Z := 1024.

Definition number : Type := spec_float.

(** The double nearest to the integer [z].  The dimensions that sharp
    reports are integers far below [2^53]; on such values the conversion,
    [+], [-], [Math.max] and [Math.floor(x / 2)] are exact, so they are kept
    in [Z] and converted where the first operation that rounds, the
    division of two of them, takes place. *)
Definition of_Z (z : Z) : number := binary_normalize prec emax z 0 false.

Definition div (x y : number) : number := SFdiv prec emax x y.
Definition sub (x y : number) : number := SFsub prec emax x y.
Definition abs (x : number) : number := SFabs x.
Definition ltb (x y : number) : bool := SFltb x y.

(** The rational denoted by a finite double (0 for infinities and NaN,
    which never arise from the dimensions considered below). *)
Definition to_Q (x : number) : Q :=
  match x with
  | S754_finite s m e =>
      let v := if s then Z.neg m else Z.pos m in
      if (0 <=? e)%Z then inject_Z (v * 2 ^ e) else (v # (Z.to_pos (2 ^ (- e))))
  | _ => 0%Q
  end.

End Number.

Import Number.

(** ** Data model *)

Definition Buffer : Type := list Byte.byte.

Record ImagePair : Type := {
  first : Buffer;
  second : Buffer
}.

Record ImageDimensions : Type := {
  width : Z;
  height : Z;
  aspectRatio : number
}.

Inductive MergeDirection : Type := HORIZONTAL | VERTICAL.

(** [ProcessingOptions]: [fps] and [cleanup] are optional properties. *)
Module Options.
Record t : Type := {
  folder : string;
  fps : option Z;
  cleanup : option bool
}.
End Options.

(** Rejections.  [ImageProcessingError] is the class declared on lines
    246-255, which the source constructs with a message only;
    [ExternalError] stands for any error raised by sharp, by the file system
    or by ffmpeg. *)
Inductive Error : Type :=
  | ImageProcessingError (message : string)
  | ExternalError (message : string).

(** The settled outcome of a promise. *)
Definition Result (A : Type) : Type := Error + A.

#[global] Instance Result_ret : MRet Result := fun _ a => inr a.
#[global] Instance Result_bind : MBind Result := fun _ _ f m =>
  match m with
  | inl e => inl e
  | inr a => f a
  end.

Definition throw {A : Type} (e : Error) : Result A := inl e.

(** [Promise.all] on two promises.  When both reject, the promise that
    settles first gives the reason; [second_first] tells whether this is the
    second one. *)
Definition promise_all2 {A B : Type} (second_first : bool)
    (p1 : Result A) (p2 : Result B) : Result (A * B) :=
  match p1, p2 with
  | inr a, inr b => inr (a, b)
  | inl e, inr _ => inl e
  | inr _, inl e => inl e
  | inl e1, inl e2 => inl (if second_first then e2 else e1)
  end.

(** [Promise.all] on a list of promises, given the order in which they
    settle: the first rejection in that order is the reason, and without a
    rejection the values come in the order of the list. *)
Fixpoint first_rejection {A : Type} (order : list nat)
    (ps : list (Result A)) : option Error :=
  match order with
  | [] => None
  | i :: rest =>
      match ps !! i with
      | Some (inl e) => Some e
      | _ => first_rejection rest ps
      end
  end.

Definition fulfilled {A : Type} (p : Result A) : option A :=
  match p with
  | inr a => Some a
  | inl _ => None
  end.

Definition promise_all {A : Type} (order : list nat)
    (ps : list (Result A)) : Result (list A) :=
  match first_rejection order ps with
  | Some e => inl e
  | None => inr (omap fulfilled ps)
  end.

(** ** The libraries the processor calls *)

(** What [sharp(image).metadata()] resolves with: [width] and [height] are
    optional properties. *)
Record Metadata : Type := {
  meta_width : option Z;
  meta_height : option Z
}.

Record Colour : Type := { r : Z; g : Z; b : Z; alpha : Z }.

Record Create : Type := {
  create_width : Z;
  create_height : Z;
  channels : Z;
  background : Colour
}.

Record OverlayOptions : Type := {
  ov_input : Buffer;
  ov_left : Z;
  ov_top : Z
}.

Inductive OutputFormat : Type := jpeg.

(** The chain [sharp({create}).composite([...]).jpeg()], before
    [toBuffer()] runs it. *)
Record SharpPipeline : Type := {
  create : Create;
  composite : list OverlayOptions;
  output : OutputFormat
}.

(** sharp, [path] and [fs/promises] are outside the repository: they are
    the fields of a [Platform].  [env_OUTPUT_DIR] is [env.OUTPUT_DIR]. *)
Record Platform : Type := {
  sharp_metadata : Buffer -> Result Metadata;
  sharp_toBuffer : SharpPipeline -> Result Buffer;
  join : string -> string -> string;
  fs_mkdir : string -> Result ();
  fs_writeFile : string -> Buffer -> Result ();
  env_OUTPUT_DIR : string
}.

(** ** fluent-ffmpeg commands *)

Record FfmpegInput : Type := {
  source : string;
  input_fps : option Z
}.

Record FfmpegCommand : Type := {
  inputs : list FfmpegInput;
  format : option string;
  videoCodec : option string;
  outputOptions : list string
}.

Definition ffmpeg : FfmpegCommand :=
  {| inputs := []; format := None; videoCodec := None; outputOptions := [] |}.

Definition input (src : string) (c : FfmpegCommand) : FfmpegCommand :=
  {| inputs := inputs c ++ [ {| source := src; input_fps := None |} ];
     format := format c; videoCodec := videoCodec c;
     outputOptions := outputOptions c |}.

(** [inputFPS] applies to the input added last. *)
Definition inputFPS (n : Z) (c : FfmpegCommand) : FfmpegCommand :=
  {| inputs :=
       match reverse (inputs c) with
       | [] => []
       | i :: before =>
           reverse before ++ [ {| source := source i; input_fps := Some n |} ]
       end;
     format := format c; videoCodec := videoCodec c;
     outputOptions := outputOptions c |}.

Definition set_format (f : string) (c : FfmpegCommand) : FfmpegCommand :=
  {| inputs := inputs c; format := Some f; videoCodec := videoCodec c;
     outputOptions := outputOptions c |}.

Definition set_videoCodec (v : string) (c : FfmpegCommand) : FfmpegCommand :=
  {| inputs := inputs c; format := format c; videoCodec := Some v;
     outputOptions := outputOptions c |}.

Definition add_outputOptions (o : list string) (c : FfmpegCommand) : FfmpegCommand :=
  {| inputs := inputs c; format := format c; videoCodec := videoCodec c;
     outputOptions := outputOptions c ++ o |}.

(** The [PassThrough] stream that a command pipes its output into. *)
Inductive ReadableStream : Type :=
  | PassThrough (fed_by : FfmpegCommand).

(** ** Effects of a job, in the order in which they happen *)

Inductive Event : Type :=
  | Mkdir (path : string) (recursive : bool)
  | WriteFile (path : string) (data : Buffer)
  | FfmpegRun (command : FfmpegCommand).

(** The files of the output directory after a sequence of effects. *)
Definition apply_event (files : gmap string Buffer) (ev : Event) : gmap string Buffer :=
  match ev with
  | WriteFile path data => <[path := data]> files
  | _ => files
  end.

Definition files_after (events : list Event) (files : gmap string Buffer) :
    gmap string Buffer :=
  foldl apply_event files events.

Definition written_paths (events : list Event) : list string :=
  omap (fun ev => match ev with WriteFile path _ => Some path | _ => None end) events.

Definition encoder_runs (events : list Event) : list FfmpegCommand :=
  omap (fun ev => match ev with FfmpegRun c => Some c | _ => None end) events.

(** ** Promises that are settled by callbacks *)

Inductive PromiseState (A : Type) : Type :=
  | Pending
  | Fulfilled (value : A)
  | Rejected (reason : Error).
Arguments Pending {A}.
Arguments Fulfilled {A} value.
Arguments Rejected {A} reason.

(** [resolve] and [reject] settle a pending promise and do nothing to a
    settled one. *)
Definition resolve {A : Type} (p : PromiseState A) (value : A) : PromiseState A :=
  match p with
  | Pending => Fulfilled value
  | _ => p
  end.

Definition reject {A : Type} (p : PromiseState A) (reason : Error) : PromiseState A :=
  match p with
  | Pending => Rejected reason
  | _ => p
  end.

(** What the reader of the returned stream observes. *)
Inductive StreamSignal : Type :=
  | Chunk (data : Buffer)
  | EndOfStream
  | StreamError (err : Error).

(** What happens to the spawned ffmpeg process, as fluent-ffmpeg reports it:
    the ['start'], ['error'] and ['end'] events of the command, and output
    arriving on the pipe. *)
Inductive EncoderEvent : Type :=
  | OnStart (commandLine : string)
  | OnData (chunk : Buffer)
  | OnError (err : Error) (stdout stderr : string)
  | OnEnd.

(** [spawned] tells whether fluent-ffmpeg has spawned the process, whose
    standard output it then pipes into the stream. *)
Record VideoState : Type := {
  promise : PromiseState ReadableStream;
  console : list string;
  delivered : list StreamSignal;
  spawned : bool
}.

Definition message (e : Error) : string :=
  match e with
  | ImageProcessingError m => m
  | ExternalError m => m
  end.

(** ** [ImageVideoProcessor] *)

Record ImageVideoProcessor : Type := {
  outputDir : string;
  videoOutput : string;
  fps : Z;
  shouldCleanup : bool
}.

(** Order of completion of the concurrent operations of one job:
    [settle_order] lists the indices of the pairs in the order in which
    their promises settle, and [races i] tells, for the two [Promise.all]
    calls on the images of pair [i], whether the second image settles
    first. *)
Record Schedule : Type := {
  settle_order : list nat;
  races : nat -> bool * bool
}.

(** [!x] on an optional number: [undefined] and [0] are falsy. *)
Definition falsy (x : option Z) : bool :=
  match x with
  | None => true
  | Some v => v =? 0
  end.

Definition invalid_metadata : Error := ImageProcessingError "Invalid image metadata".

Section Processor.

Variable P : Platform.

(** The field initialisers and the constructor, lines 36-46. *)
Definition new_ImageVideoProcessor (options : Options.t) : ImageVideoProcessor :=
  {| outputDir := join P (env_OUTPUT_DIR P) (Options.folder options);
     videoOutput := "output.mp4";
     fps := default 24 (Options.fps options);
     shouldCleanup := default false (Options.cleanup options) |}.

(** Lines 48-60. *)
Definition getImageDimensions (image : Buffer) : Result ImageDimensions :=
  metadata ← sharp_metadata P image;
  if falsy (meta_width metadata) || falsy (meta_height metadata)
  then throw invalid_metadata
  else
    let w := default 0 (meta_width metadata) in
    let h := default 0 (meta_height metadata) in
    mret {| width := w; height := h; aspectRatio := div (of_Z w) (of_Z h) |}.

(** Lines 71-83: both candidate ratios, their distances to the ideal
    ratio, and the choice. *)
Definition horizontalAspectRatio (img1Dims img2Dims : ImageDimensions) : number :=
  div (of_Z (width img1Dims + width img2Dims))
      (of_Z (Z.max (height img1Dims) (height img2Dims))).

Definition verticalAspectRatio (img1Dims img2Dims : ImageDimensions) : number :=
  div (of_Z (Z.max (width img1Dims) (width img2Dims)))
      (of_Z (height img1Dims + height img2Dims)).

Definition idealAspectRatio : number := div (of_Z 9) (of_Z 16).

Definition horizontalDiff (img1Dims img2Dims : ImageDimensions) : number :=
  abs (sub (horizontalAspectRatio img1Dims img2Dims) idealAspectRatio).

Definition verticalDiff (img1Dims img2Dims : ImageDimensions) : number :=
  abs (sub (verticalAspectRatio img1Dims img2Dims) idealAspectRatio).

Definition closerDirection (img1Dims img2Dims : ImageDimensions) : MergeDirection :=
  if ltb (horizontalDiff img1Dims img2Dims) (verticalDiff img1Dims img2Dims)
  then HORIZONTAL else VERTICAL.

(** Lines 62-84. *)
Definition determineMergeDirection (second_first : bool)
    (image1Buffer image2Buffer : Buffer) : Result MergeDirection :=
  '(img1Dims, img2Dims) ←
    promise_all2 second_first
      (getImageDimensions image1Buffer) (getImageDimensions image2Buffer);
  mret (closerDirection img1Dims img2Dims).

Definition white : Colour := {| r := 255; g := 255; b := 255; alpha := 1 |}.

(** Lines 86-127 and 129-170.  The [catch] blocks of the two merge methods
    log the error and throw it again, so the outcome is that of the [try]
    block. *)
Definition mergeSideBySide (second_first : bool) (image1 image2 : Buffer) :
    Result Buffer :=
  '(img1Meta, img2Meta) ←
    promise_all2 second_first (sharp_metadata P image1) (sharp_metadata P image2);
  if falsy (meta_width img1Meta) || falsy (meta_width img2Meta)
     || falsy (meta_height img1Meta) || falsy (meta_height img2Meta)
  then throw invalid_metadata
  else
    let w1 := default 0 (meta_width img1Meta) in
    let w2 := default 0 (meta_width img2Meta) in
    let h1 := default 0 (meta_height img1Meta) in
    let h2 := default 0 (meta_height img2Meta) in
    let totalHeight := Z.max h1 h2 in
    sharp_toBuffer P
      {| create := {| create_width := w1 + w2; create_height := totalHeight;
                      channels := 4; background := white |};
         composite :=
           [ {| ov_input := image1; ov_left := 0;
                ov_top := (totalHeight - h1) `div` 2 |};
             {| ov_input := image2; ov_left := w1;
                ov_top := (totalHeight - h2) `div` 2 |} ];
         output := jpeg |}.

Definition mergeTopAndBottom (second_first : bool) (image1 image2 : Buffer) :
    Result Buffer :=
  '(img1Meta, img2Meta) ←
    promise_all2 second_first (sharp_metadata P image1) (sharp_metadata P image2);
  if falsy (meta_width img1Meta) || falsy (meta_width img2Meta)
     || falsy (meta_height img1Meta) || falsy (meta_height img2Meta)
  then throw invalid_metadata
  else
    let w1 := default 0 (meta_width img1Meta) in
    let w2 := default 0 (meta_width img2Meta) in
    let h1 := default 0 (meta_height img1Meta) in
    let h2 := default 0 (meta_height img2Meta) in
    let totalWidth := Z.max w1 w2 in
    sharp_toBuffer P
      {| create := {| create_width := totalWidth; create_height := h1 + h2;
                      channels := 4; background := white |};
         composite :=
           [ {| ov_input := image1; ov_left := (totalWidth - w1) `div` 2;
                ov_top := 0 |};
             {| ov_input := image2; ov_left := (totalWidth - w2) `div` 2;
                ov_top := h1 |} ];
         output := jpeg |}.

(** Lines 172-184; the [default] branch of the [switch] cannot be reached
    with a value of the enumeration. *)
Definition mergeImages (race : bool * bool) (image1 image2 : Buffer) :
    Result Buffer :=
  direction ← determineMergeDirection race.1 image1 image2;
  match direction with
  | HORIZONTAL => mergeSideBySide race.2 image1 image2
  | VERTICAL => mergeTopAndBottom race.2 image1 image2
  end.

End Processor.

(** ** The streaming encoder *)

(** The command that [createVideoFromImages] assembles (lines 190-195). *)
Definition encoderCommand (self : ImageVideoProcessor) (inputDir : string) :
    FfmpegCommand :=
  add_outputOptions ["-movflags frag_keyframe+empty_moov"]
    (set_videoCodec "libx264"
      (set_format "mp4"
        (inputFPS (fps self)
          (input (inputDir +:+ "/%d.jpg") ffmpeg)))).

(** Lines 186-216.  The executor of the promise: it creates the stream,
    starts the command with [pipe(passThrough, { end: true })] and resolves
    at once.  The result is the command that was started and the state in
    which the executor leaves the promise, the console and the stream. *)
Definition createVideoFromImages (self : ImageVideoProcessor) (inputDir : string) :
    FfmpegCommand * VideoState :=
  let command := encoderCommand self inputDir in
  let passThrough := PassThrough command in
  (command,
   {| promise := resolve Pending passThrough; console := []; delivered := [];
      spawned := false |}).

(** The three handlers registered on the command (lines 196-209). *)
Definition on_start (commandLine : string) (st : VideoState) : VideoState :=
  {| promise := promise st;
     console := console st ++ ["Spawned FFmpeg with command: " +:+ commandLine];
     delivered := delivered st; spawned := spawned st |}.

Definition on_error (err : Error) (stdout stderr : string) (st : VideoState) :
    VideoState :=
  {| promise := reject (promise st) err;
     console := console st ++ ["FFmpeg error: " +:+ message err;
                               "stdout: " +:+ stdout;
                               "stderr: " +:+ stderr];
     delivered := delivered st; spawned := spawned st |}.

Definition on_end (st : VideoState) : VideoState :=
  {| promise := promise st;
     console := console st ++ ["FFmpeg processing finished"];
     delivered := delivered st; spawned := spawned st |}.

(** Node's [readable.pipe(destination, { end: true })], which fluent-ffmpeg
    applies to the standard output of the process once it has spawned it:
    every chunk is written to the destination, and the destination is ended
    when the output of the process ends, whether the process succeeded or
    not.  [pipe] forwards no error.  Without a process there is no output
    to end: an ['error'] that fluent-ffmpeg reports before it spawns
    anything, such as a missing binary, leaves the stream open. *)
Definition pipe_open (st : VideoState) : VideoState :=
  {| promise := promise st; console := console st;
     delivered := delivered st; spawned := true |}.

Definition pipe_chunk (chunk : Buffer) (st : VideoState) : VideoState :=
  {| promise := promise st; console := console st;
     delivered := delivered st ++ [Chunk chunk]; spawned := spawned st |}.

Definition pipe_end (st : VideoState) : VideoState :=
  {| promise := promise st; console := console st;
     delivered := if spawned st then delivered st ++ [EndOfStream] else delivered st;
     spawned := spawned st |}.

(** ['start'] is the event with which fluent-ffmpeg reports that it has
    spawned the process. *)
Definition encoder_step (st : VideoState) (ev : EncoderEvent) : VideoState :=
  match ev with
  | OnStart commandLine => on_start commandLine (pipe_open st)
  | OnData chunk => pipe_chunk chunk st
  | OnError err stdout stderr => pipe_end (on_error err stdout stderr st)
  | OnEnd => pipe_end (on_end st)
  end.

Definition encoder_run (st : VideoState) (evs : list EncoderEvent) : VideoState :=
  foldl encoder_step st evs.

(** ** Frame sequencing and the whole job *)

Section Job.

Variable P : Platform.

Definition framePath (self : ImageVideoProcessor) (index : nat) : string :=
  join P (outputDir self) (pretty (index + 1)%nat +:+ ".jpg").

(** One element of [mergePromises] (lines 225-230): the effects of the
    promise and how it settles. *)
Definition mergePromise (self : ImageVideoProcessor) (sched : Schedule)
    (index : nat) (pair : ImagePair) : list Event * Result () :=
  match mergeImages P (races sched index) (first pair) (second pair) with
  | inl e => ([], inl e)
  | inr buffer =>
      let outputPath := framePath self index in
      match fs_writeFile P outputPath buffer with
      | inl e => ([], inl e)
      | inr _ => ([WriteFile outputPath buffer], inr ())
      end
  end.

(** The effects of the promises in [mergePromises], in the order in which
    these settle. *)
Definition pair_effects (mergePromises : list (list Event * Result ()))
    (order : list nat) : list Event :=
  i ← order; default [] (fst <$> mergePromises !! i).

(** Lines 218-242.  All the effects of the call, in the order in which they
    happen, and the state of the promise it returns.  The [catch] block logs
    the error and throws it again.  When a pair rejects, the promises
    of the other pairs are not cancelled: their writes still happen. *)
Definition processImagesAndCreateVideo (self : ImageVideoProcessor)
    (sched : Schedule) (imagePairs : list ImagePair) :
    list Event * PromiseState ReadableStream :=
  match fs_mkdir P (outputDir self) with
  | inl e => ([], Rejected e)
  | inr _ =>
      let mergePromises := imap (mergePromise self sched) imagePairs in
      let writes := pair_effects mergePromises (settle_order sched) in
      match promise_all (settle_order sched) (snd <$> mergePromises) with
      | inl e => (Mkdir (outputDir self) true :: writes, Rejected e)
      | inr _ =>
          let '(command, video) := createVideoFromImages self (outputDir self) in
          (Mkdir (outputDir self) true :: writes ++ [FfmpegRun command], promise video)
      end
  end.

(** The frame that pair [i] is merged into, when the merge succeeds, and
    the write of that frame. *)
Definition frame (sched : Schedule) (imagePairs : list ImagePair) (i : nat) : Buffer :=
  match imagePairs !! i with
  | Some imagePair =>
      match mergeImages P (races sched i) (first imagePair) (second imagePair) with
      | inr buffer => buffer
      | inl _ => []
      end
  | None => []
  end.

Definition frameWrite (self : ImageVideoProcessor) (sched : Schedule)
    (imagePairs : list ImagePair) (i : nat) : Event :=
  WriteFile (framePath self i) (frame sched imagePairs i).

End Job.

(** ** A platform to run the definitions on

    A toy sharp: the first two bytes of a buffer are the width and the
    height of the image, a buffer that is too short has no dimensions, and
    the empty buffer cannot be read at all.  [toBuffer] lists the canvas
    and the overlays of the pipeline. *)

Module Demo.

Definition byte (n : Z) : Byte.byte :=
  default Byte.x00 (Byte.of_N (Z.to_N n)).

Definition size (b : Byte.byte) : Z := Z.of_N (Byte.to_N b).

Definition image (w h : Z) : Buffer := [byte w; byte h].

Definition metadata (image : Buffer) : Result Metadata :=
  match image with
  | [] => inl (ExternalError "Input buffer is empty")
  | [w] => inr {| meta_width := Some (size w); meta_height := None |}
  | w :: h :: _ => inr {| meta_width := Some (size w); meta_height := Some (size h) |}
  end.

Definition toBuffer (p : SharpPipeline) : Result Buffer :=
  inr (byte (create_width (create p)) :: byte (create_height (create p)) ::
       (o ← composite p; byte (ov_left o) :: byte (ov_top o) :: ov_input o)).

Definition platform : Platform :=
  {| sharp_metadata := metadata;
     sharp_toBuffer := toBuffer;
     join := fun dir name => dir +:+ "/" +:+ name;
     fs_mkdir := fun _ => inr ();
     fs_writeFile := fun _ _ => inr ();
     env_OUTPUT_DIR := "/data" |}.

Definition options : Options.t :=
  {| Options.folder := "job"; Options.fps := None; Options.cleanup := None |}.

Definition processor : ImageVideoProcessor := new_ImageVideoProcessor platform options.

Definition in_order (n : nat) : Schedule :=
  {| settle_order := seq 0 n; races := fun _ => (false, false) |}.

Definition backwards (n : nat) : Schedule :=
  {| settle_order := reverse (seq 0 n); races := fun _ => (true, true) |}.

Definition pairs : list ImagePair :=
  [ {| first := image 10 24; second := image 9 6 |};
    {| first := image 100 200; second := image 200 100 |};
    {| first := image 30 10; second := image 20 17 |} ].

(** The second image of the second pair has a width and no height. *)
Definition pairs_without_height : list ImagePair :=
  [ {| first := image 10 24; second := image 9 6 |};
    {| first := image 100 200; second := [byte 3] |} ].

(** The first image of the second pair cannot be read. *)
Definition pairs_unreadable : list ImagePair :=
  [ {| first := image 10 24; second := image 9 6 |};
    {| first := []; second := image 9 6 |} ].

(** Three pairs of which the second fails. *)
Definition mixed_pairs : list ImagePair :=
  [ {| first := image 10 24; second := image 9 6 |};
    {| first := image 100 200; second := [byte 3] |};
    {| first := image 30 10; second := image 20 17 |} ].

(** The same, with a first image of the first pair that cannot be read. *)
Definition faulty_pairs : list ImagePair :=
  [ {| first := []; second := image 9 6 |};
    {| first := image 100 200; second := [byte 3] |} ].

End Demo.

(** ** Vocabulary of the properties *)

(** The image has valid dimensions: its metadata gives a positive width and
    a positive height. *)
Definition has_dimensions (P : Platform) (image : Buffer) (w h : Z) : Prop :=
  sharp_metadata P image = inr {| meta_width := Some w; meta_height := Some h |}
  /\ 0 < w /\ 0 < h.

(** The metadata of the image can be read but gives no width or no height. *)
Definition lacks_dimensions (P : Platform) (image : Buffer) : Prop :=
  exists metadata, sharp_metadata P image = inr metadata
    /\ falsy (meta_width metadata) || falsy (meta_height metadata) = true.

(** The width or the height of the image cannot be determined: sharp
    rejects the read of the metadata, as it does for a corrupt image or an
    unsupported format, or the metadata give no width or no height. *)
Definition dimensions_undetermined (P : Platform) (image : Buffer) : Prop :=
  (exists e, sharp_metadata P image = inl e) \/ lacks_dimensions P image.

Definition dimensions (w h : Z) : ImageDimensions :=
  {| width := w; height := h; aspectRatio := div (of_Z w) (of_Z h) |}.

(** The two candidate ratios and the comparison of section 4.2 of the
    specification, on exact rationals. *)
Definition horizontalRatio (wA hA wB hB : Z) : Q :=
  (inject_Z (wA + wB) / inject_Z (Z.max hA hB))%Q.

Definition verticalRatio (wA hA wB hB : Z) : Q :=
  (inject_Z (Z.max wA wB) / inject_Z (hA + hB))%Q.

Definition horizontal_strictly_closer (wA hA wB hB : Z) : Prop :=
  (Qabs (horizontalRatio wA hA wB hB - (9 # 16))
   < Qabs (verticalRatio wA hA wB hB - (9 # 16)))%Q.

(** Whether the direction chosen for two sizes is the one that the exact
    comparison gives. *)
Definition agrees_with_exact (wA hA wB hB : Z) : bool :=
  match closerDirection (dimensions wA hA) (dimensions wB hB),
        (Qabs (horizontalRatio wA hA wB hB - (9 # 16))
         ?= Qabs (verticalRatio wA hA wB hB - (9 # 16)))%Q with
  | HORIZONTAL, Lt => true
  | VERTICAL, (Eq | Gt) => true
  | _, _ => false
  end.

Definition small_sizes : list Z := [1; 2; 3; 4; 5; 6; 7; 8].

(** The promise of the pair at position [i] is fulfilled: the merge gives a
    buffer and the file system accepts the write. *)
Definition pair_succeeds (P : Platform) (self : ImageVideoProcessor)
    (sched : Schedule) (i : nat) (pair : ImagePair) : Prop :=
  exists buffer,
    mergeImages P (races sched i) (first pair) (second pair) = inr buffer
    /\ fs_writeFile P (framePath P self i) buffer = inr ().

(** [path.join] maps the names of two different frames to two different
    paths of the directory. *)
Definition join_separates_frames (P : Platform) (dir : string) : Prop :=
  forall i j : nat,
    join P dir (pretty i +:+ ".jpg") = join P dir (pretty j +:+ ".jpg") ->
    pretty i +:+ ".jpg" = pretty j +:+ ".jpg".

(** The frames of a job, by position. *)
Definition frames (P : Platform) (self : ImageVideoProcessor) (sched : Schedule)
    (imagePairs : list ImagePair) (order : list nat) : list (string * Buffer) :=
  (fun i => (framePath P self i, frame P sched imagePairs i)) <$> order.

(** The metadata of the image gives a width and a height that pass the
    checks of the source: both are present and neither is 0. *)
Definition readable_as (P : Platform) (image : Buffer) (w h : Z) : Prop :=
  sharp_metadata P image = inr {| meta_width := Some w; meta_height := Some h |}
  /\ w <> 0 /\ h <> 0.

(** The pipelines that the two merge methods hand to sharp (lines 99-119
    and 142-162), for images of the given sizes. *)
Definition sideBySide (image1 image2 : Buffer) (w1 h1 w2 h2 : Z) : SharpPipeline :=
  {| create := {| create_width := w1 + w2; create_height := Z.max h1 h2;
                  channels := 4; background := white |};
     composite :=
       [ {| ov_input := image1; ov_left := 0;
            ov_top := (Z.max h1 h2 - h1) `div` 2 |};
         {| ov_input := image2; ov_left := w1;
            ov_top := (Z.max h1 h2 - h2) `div` 2 |} ];
     output := jpeg |}.

Definition topAndBottom (image1 image2 : Buffer) (w1 h1 w2 h2 : Z) : SharpPipeline :=
  {| create := {| create_width := Z.max w1 w2; create_height := h1 + h2;
                  channels := 4; background := white |};
     composite :=
       [ {| ov_input := image1; ov_left := (Z.max w1 w2 - w1) `div` 2;
            ov_top := 0 |};
         {| ov_input := image2; ov_left := (Z.max w1 w2 - w2) `div` 2;
            ov_top := h1 |} ];
     output := jpeg |}.

Definition layout (direction : MergeDirection) (image1 image2 : Buffer)
    (w1 h1 w2 h2 : Z) : SharpPipeline :=
  match direction with
  | HORIZONTAL => sideBySide image1 image2 w1 h1 w2 h2
  | VERTICAL => topAndBottom image1 image2 w1 h1 w2 h2
  end.

(** An image of [w] by [h] pixels, overlaid at the offsets of [o], lies
    within the canvas. *)
Definition inside (canvas : Create) (o : OverlayOptions) (w h : Z) : Prop :=
  0 <= ov_left o /\ ov_left o + w <= create_width canvas
  /\ 0 <= ov_top o /\ ov_top o + h <= create_height canvas.

(** Two overlaid images share no pixel: one ends, horizontally or
    vertically, where the other begins or before. *)
Definition apart (o1 : OverlayOptions) (w1 h1 : Z) (o2 : OverlayOptions) : Prop :=
  ov_left o1 + w1 <= ov_left o2 \/ ov_top o1 + h1 <= ov_top o2.

(** Whether the promise of the pair at position [i] is fulfilled. *)
Definition pair_fulfilled (P : Platform) (self : ImageVideoProcessor)
    (sched : Schedule) (imagePairs : list ImagePair) (i : nat) : bool :=
  match imap (mergePromise P self sched) imagePairs !! i with
  | Some (_, inr _) => true
  | _ => false
  end.

(** The positions of [order] whose promise is fulfilled. *)
Definition fulfilled_positions (P : Platform) (self : ImageVideoProcessor)
    (sched : Schedule) (imagePairs : list ImagePair) (order : list nat) : list nat :=
  filter (fun i => pair_fulfilled P self sched imagePairs i = true) order.

(** ** The layout selector *)

Lemma getImageDimensions_valid (P : Platform) (image : Buffer) (w h : Z) :
  has_dimensions P image w h ->
  getImageDimensions P image = inr (dimensions w h).
Proof.
  intros (Hmeta & Hw & Hh). unfold getImageDimensions. rewrite Hmeta. simpl.
  destruct (Z.eqb_spec w 0) as [->|_]; [lia|].
  destruct (Z.eqb_spec h 0) as [->|_]; [lia|].
  reflexivity.
Qed.

Lemma determineMergeDirection_valid (P : Platform) (second_first : bool)
    (imageA imageB : Buffer) (wA hA wB hB : Z) :
  has_dimensions P imageA wA hA ->
  has_dimensions P imageB wB hB ->
  determineMergeDirection P second_first imageA imageB
  = inr (closerDirection (dimensions wA hA) (dimensions wB hB)).
Proof.
  intros HA HB. unfold determineMergeDirection.
  rewrite (getImageDimensions_valid P imageA wA hA HA).
  rewrite (getImageDimensions_valid P imageB wB hB HB).
  reflexivity.
Qed.

Lemma ltb_irrefl (x : number) : ltb x x = false.
Proof.
  unfold ltb, SFltb.
  destruct (SFcompare x x) as [[]|] eqn:Hc; try reflexivity.
  exfalso. revert Hc. destruct x as [[]|[]| |[] m e]; simpl; try discriminate.
  - rewrite Z.compare_refl, Pos.compare_cont_refl. discriminate.
  - rewrite Z.compare_refl, Pos.compare_refl. discriminate.
Qed.

Lemma closerDirection_comm (d1 d2 : ImageDimensions) :
  closerDirection d1 d2 = closerDirection d2 d1.
Proof.
  unfold closerDirection, horizontalDiff, verticalDiff,
    horizontalAspectRatio, verticalAspectRatio.
  rewrite (Z.add_comm (width d1)), (Z.max_comm (height d1)),
    (Z.max_comm (width d1)), (Z.add_comm (height d1)).
  reflexivity.
Qed.

(** The doubles computed for a 10x24 and a 9x6 image.  Both exact distances
    are 11/48; the quotients 19/24 and 10/30 are both rounded down, which
    puts the first distance below 11/48 and the second above it, two units
    in the last place apart (0.22916666666666663 against
    0.22916666666666669). *)
Example tie_horizontalDiff :
  horizontalDiff (dimensions 10 24) (dimensions 9 6)
  = S754_finite false 8256599316845908 (-55).
Proof. vm_compute. reflexivity. Qed.

Example tie_verticalDiff :
  verticalDiff (dimensions 10 24) (dimensions 9 6)
  = S754_finite false 8256599316845910 (-55).
Proof. vm_compute. reflexivity. Qed.

(** The binary64 unit of the machine computes the same two distances. *)
Example tie_on_hardware :
  let double (z : Z) := PrimFloat.of_uint63 (Uint63.of_Z z) in
  let distance (x : PrimFloat.float) :=
    PrimFloat.abs (PrimFloat.sub x (PrimFloat.div (double 9) (double 16))) in
  FloatOps.Prim2SF (distance (PrimFloat.div (double (10 + 9)) (double (Z.max 24 6))))
  = horizontalDiff (dimensions 10 24) (dimensions 9 6)
  /\ FloatOps.Prim2SF (distance (PrimFloat.div (double (Z.max 10 9)) (double (24 + 6))))
     = verticalDiff (dimensions 10 24) (dimensions 9 6).
Proof. split; vm_compute; reflexivity. Qed.

Example tie_exact_distances :
  (Qabs (horizontalRatio 10 24 9 6 - (9 # 16)) == 11 # 48
   /\ Qabs (verticalRatio 10 24 9 6 - (9 # 16)) == 11 # 48)%Q.
Proof. split; vm_compute; reflexivity. Qed.

(** The scenario of the specification: 100x200 with 200x100 is stacked. *)
Example scenario_100x200_200x100 :
  closerDirection (dimensions 100 200) (dimensions 200 100) = VERTICAL.
Proof. vm_compute. reflexivity. Qed.

(** For small images the rounding does not show: the selector agrees with
    the comparison of the exact distances for all widths and heights from 1
    to 8. *)
Lemma closerDirection_exact_small (wA hA wB hB : Z) :
  1 <= wA <= 8 -> 1 <= hA <= 8 -> 1 <= wB <= 8 -> 1 <= hB <= 8 ->
  closerDirection (dimensions wA hA) (dimensions wB hB) = HORIZONTAL
  <-> horizontal_strictly_closer wA hA wB hB.
Proof.
  intros HwA HhA HwB HhB.
  assert (Hall : forallb (fun a => forallb (fun b => forallb (fun c =>
            forallb (fun d => agrees_with_exact a b c d) small_sizes)
            small_sizes) small_sizes) small_sizes = true)
    by (vm_compute; reflexivity).
  assert (Hin : forall z, 1 <= z <= 8 -> In z small_sizes)
    by (intros z Hz; unfold small_sizes; simpl; lia).
  rewrite forallb_forall in Hall. specialize (Hall wA (Hin wA HwA)).
  rewrite forallb_forall in Hall. specialize (Hall hA (Hin hA HhA)).
  rewrite forallb_forall in Hall. specialize (Hall wB (Hin wB HwB)).
  rewrite forallb_forall in Hall. specialize (Hall hB (Hin hB HhB)).
  unfold agrees_with_exact in Hall. unfold horizontal_strictly_closer.
  rewrite Qlt_alt.
  destruct (closerDirection (dimensions wA hA) (dimensions wB hB));
    destruct (Qabs _ ?= Qabs _)%Q; try discriminate Hall;
    split; intros H; (reflexivity || discriminate H).
Qed.

(** C1, as stated, fails: for a 10x24 and a 9x6 image the two exact
    distances to 9/16 are equal, and the selector returns HORIZONTAL. *)
Lemma determineMergeDirection_exact_tie :
  ~ (determineMergeDirection Demo.platform false (Demo.image 10 24) (Demo.image 9 6)
     = inr HORIZONTAL
     <-> horizontal_strictly_closer 10 24 9 6).
Proof.
  intros [Hcode _].
  assert (Hlt : horizontal_strictly_closer 10 24 9 6)
    by (apply Hcode; vm_compute; reflexivity).
  vm_compute in Hlt. discriminate Hlt.
Qed.

(** C1, amended: for two images with valid dimensions the selector returns
    HORIZONTAL if and only if the distance of
    (widthA+widthB)/max(heightA,heightB) to 9/16 is strictly smaller than
    the distance of max(widthA,widthB)/(heightA+heightB) to 9/16, where
    quotients and differences are binary64 values rounded to nearest; it
    returns VERTICAL otherwise, so that equal computed distances select
    VERTICAL.  The target is the double that is exactly 9/16, and 9/16 is
    not 16/9. *)
Theorem determineMergeDirection_rounded (P : Platform) (second_first : bool)
    (imageA imageB : Buffer) (wA hA wB hB : Z) :
  has_dimensions P imageA wA hA ->
  has_dimensions P imageB wB hB ->
  let target := div (of_Z 9) (of_Z 16) in
  let dH := abs (sub (div (of_Z (wA + wB)) (of_Z (Z.max hA hB))) target) in
  let dV := abs (sub (div (of_Z (Z.max wA wB)) (of_Z (hA + hB))) target) in
  (determineMergeDirection P second_first imageA imageB = inr HORIZONTAL
   <-> ltb dH dV = true)
  /\ (determineMergeDirection P second_first imageA imageB = inr VERTICAL
      <-> ltb dH dV = false)
  /\ (dH = dV -> determineMergeDirection P second_first imageA imageB = inr VERTICAL)
  /\ (to_Q target == 9 # 16)%Q
  /\ ~ (9 # 16 == 16 # 9)%Q.
Proof.
  intros HA HB target dH dV.
  rewrite (determineMergeDirection_valid P second_first imageA imageB wA hA wB hB HA HB).
  change (closerDirection (dimensions wA hA) (dimensions wB hB))
    with (if ltb dH dV then HORIZONTAL else VERTICAL).
  split; [|split; [|split; [|split]]].
  - destruct (ltb dH dV); split; intros H; (reflexivity || discriminate H).
  - destruct (ltb dH dV); split; intros H; (reflexivity || discriminate H).
  - intros ->. rewrite ltb_irrefl. reflexivity.
  - vm_compute. reflexivity.
  - vm_compute. discriminate.
Qed.

Lemma determineMergeDirection_rounded_witness :
  determineMergeDirection Demo.platform false (Demo.image 100 200) (Demo.image 200 100)
  = inr VERTICAL.
Proof.
  assert (HA : has_dimensions Demo.platform (Demo.image 100 200) 100 200)
    by (repeat split; reflexivity).
  assert (HB : has_dimensions Demo.platform (Demo.image 200 100) 200 100)
    by (repeat split; reflexivity).
  destruct (determineMergeDirection_rounded Demo.platform false _ _ _ _ _ _ HA HB)
    as (_ & Hv & _).
  apply Hv. vm_compute. reflexivity.
Defined.

Lemma ratios_comm (d1 d2 : ImageDimensions) :
  horizontalAspectRatio d1 d2 = horizontalAspectRatio d2 d1
  /\ verticalAspectRatio d1 d2 = verticalAspectRatio d2 d1.
Proof.
  unfold horizontalAspectRatio, verticalAspectRatio.
  rewrite (Z.add_comm (width d1)), (Z.max_comm (height d1)),
    (Z.max_comm (width d1)), (Z.add_comm (height d1)).
  split; reflexivity.
Qed.

(** C9: for two images with valid dimensions the selector returns the same
    direction when the images are exchanged, whichever of the two
    dimension reads settles first, and both candidate ratios are the same
    for the two orders. *)
Theorem determineMergeDirection_comm (P : Platform) (race race' : bool)
    (imageA imageB : Buffer) (wA hA wB hB : Z) :
  has_dimensions P imageA wA hA ->
  has_dimensions P imageB wB hB ->
  determineMergeDirection P race imageA imageB
  = determineMergeDirection P race' imageB imageA
  /\ horizontalAspectRatio (dimensions wA hA) (dimensions wB hB)
     = horizontalAspectRatio (dimensions wB hB) (dimensions wA hA)
  /\ verticalAspectRatio (dimensions wA hA) (dimensions wB hB)
     = verticalAspectRatio (dimensions wB hB) (dimensions wA hA).
Proof.
  intros HA HB. split; [|apply ratios_comm].
  rewrite (determineMergeDirection_valid P race imageA imageB wA hA wB hB HA HB).
  rewrite (determineMergeDirection_valid P race' imageB imageA wB hB wA hA HB HA).
  f_equal. apply closerDirection_comm.
Qed.

Lemma determineMergeDirection_comm_witness :
  determineMergeDirection Demo.platform false (Demo.image 10 24) (Demo.image 9 6)
  = determineMergeDirection Demo.platform true (Demo.image 9 6) (Demo.image 10 24).
Proof.
  apply (determineMergeDirection_comm Demo.platform false true _ _ 10 24 9 6);
    repeat split; reflexivity.
Defined.

(** ** The pair compositor *)

Lemma all_truthy (w1 h1 w2 h2 : Z) :
  0 < w1 -> 0 < h1 -> 0 < w2 -> 0 < h2 ->
  falsy (Some w1) || falsy (Some w2) || falsy (Some h1) || falsy (Some h2) = false.
Proof.
  intros. simpl.
  repeat match goal with
         | |- context [?x =? 0] => destruct (Z.eqb_spec x 0); [lia|]
         end.
  reflexivity.
Qed.

(** C4: merged side by side, two images with valid dimensions are put on an
    opaque white canvas with 4 channels, of width widthA+widthB and height
    max(heightA,heightB); the first image is at left 0, the second at left
    widthA, and each is at top floor((canvasHeight - imageHeight)/2).  When
    the heights differ, the taller image is at top 0 and the shorter one at
    the floor of half the difference. *)
Theorem mergeSideBySide_layout (P : Platform) (race : bool)
    (image1 image2 : Buffer) (w1 h1 w2 h2 : Z) :
  has_dimensions P image1 w1 h1 ->
  has_dimensions P image2 w2 h2 ->
  exists top1 top2 : Z,
    mergeSideBySide P race image1 image2
    = sharp_toBuffer P
        {| create := {| create_width := w1 + w2;
                        create_height := Z.max h1 h2;
                        channels := 4;
                        background := {| r := 255; g := 255; b := 255; alpha := 1 |} |};
           composite := [ {| ov_input := image1; ov_left := 0; ov_top := top1 |};
                          {| ov_input := image2; ov_left := w1; ov_top := top2 |} ];
           output := jpeg |}
    /\ 2 * top1 <= Z.max h1 h2 - h1 < 2 * top1 + 2
    /\ 2 * top2 <= Z.max h1 h2 - h2 < 2 * top2 + 2
    /\ (h1 < h2 -> top1 = (h2 - h1) `div` 2 /\ top2 = 0)
    /\ (h2 < h1 -> top1 = 0 /\ top2 = (h1 - h2) `div` 2).
Proof.
  intros (Hm1 & Hw1 & Hh1) (Hm2 & Hw2 & Hh2).
  exists ((Z.max h1 h2 - h1) `div` 2), ((Z.max h1 h2 - h2) `div` 2).
  split.
  - unfold mergeSideBySide. rewrite Hm1, Hm2. cbn [promise_all2 mbind Result_bind].
    cbn [meta_width meta_height]. rewrite all_truthy by assumption.
    reflexivity.
  - pose proof (Z.div_mod (Z.max h1 h2 - h1) 2 ltac:(lia)) as E1.
    pose proof (Z.mod_pos_bound (Z.max h1 h2 - h1) 2 ltac:(lia)) as B1.
    pose proof (Z.div_mod (Z.max h1 h2 - h2) 2 ltac:(lia)) as E2.
    pose proof (Z.mod_pos_bound (Z.max h1 h2 - h2) 2 ltac:(lia)) as B2.
    split; [lia|]. split; [lia|]. split.
    + intros Hlt. rewrite Z.max_r by lia. rewrite Z.sub_diag. split; reflexivity.
    + intros Hlt. rewrite Z.max_l by lia. rewrite Z.sub_diag. split; reflexivity.
Qed.

Lemma mergeSideBySide_layout_witness :
  exists top1 top2 : Z,
    mergeSideBySide Demo.platform false (Demo.image 30 10) (Demo.image 20 17)
    = inr [Demo.byte 50; Demo.byte 17;
           Demo.byte 0; Demo.byte top1; Demo.byte 30; Demo.byte 10;
           Demo.byte 30; Demo.byte top2; Demo.byte 20; Demo.byte 17]
    /\ top1 = 3 /\ top2 = 0.
Proof.
  destruct (mergeSideBySide_layout Demo.platform false
              (Demo.image 30 10) (Demo.image 20 17) 30 10 20 17)
    as (top1 & top2 & Hmerge & _ & _ & Hshort & _);
    [repeat split; reflexivity .. |].
  destruct Hshort as [-> ->]; [lia|].
  exists 3, 0. rewrite Hmerge. repeat split; reflexivity.
Defined.

(** C5: stacked, two images with valid dimensions are put on an opaque
    white canvas with 4 channels, of width max(widthA,widthB) and height
    heightA+heightB; the first image is at top 0, the second at top
    heightA, and each is at left floor((canvasWidth - imageWidth)/2).  Two
    images of the same size w x h give a canvas of w x 2h with both at
    left 0. *)
Theorem mergeTopAndBottom_layout (P : Platform) (race : bool)
    (image1 image2 : Buffer) (w1 h1 w2 h2 : Z) :
  has_dimensions P image1 w1 h1 ->
  has_dimensions P image2 w2 h2 ->
  exists left1 left2 : Z,
    mergeTopAndBottom P race image1 image2
    = sharp_toBuffer P
        {| create := {| create_width := Z.max w1 w2;
                        create_height := h1 + h2;
                        channels := 4;
                        background := {| r := 255; g := 255; b := 255; alpha := 1 |} |};
           composite := [ {| ov_input := image1; ov_left := left1; ov_top := 0 |};
                          {| ov_input := image2; ov_left := left2; ov_top := h1 |} ];
           output := jpeg |}
    /\ 2 * left1 <= Z.max w1 w2 - w1 < 2 * left1 + 2
    /\ 2 * left2 <= Z.max w1 w2 - w2 < 2 * left2 + 2
    /\ (w1 = w2 -> h1 = h2 ->
        Z.max w1 w2 = w1 /\ h1 + h2 = 2 * h1 /\ left1 = 0 /\ left2 = 0).
Proof.
  intros (Hm1 & Hw1 & Hh1) (Hm2 & Hw2 & Hh2).
  exists ((Z.max w1 w2 - w1) `div` 2), ((Z.max w1 w2 - w2) `div` 2).
  split.
  - unfold mergeTopAndBottom. rewrite Hm1, Hm2. cbn [promise_all2 mbind Result_bind].
    cbn [meta_width meta_height]. rewrite all_truthy by assumption.
    reflexivity.
  - pose proof (Z.div_mod (Z.max w1 w2 - w1) 2 ltac:(lia)) as E1.
    pose proof (Z.mod_pos_bound (Z.max w1 w2 - w1) 2 ltac:(lia)) as B1.
    pose proof (Z.div_mod (Z.max w1 w2 - w2) 2 ltac:(lia)) as E2.
    pose proof (Z.mod_pos_bound (Z.max w1 w2 - w2) 2 ltac:(lia)) as B2.
    split; [lia|]. split; [lia|].
    intros -> ->. rewrite Z.max_id, Z.sub_diag. repeat split; lia.
Qed.

Lemma mergeTopAndBottom_layout_witness :
  exists left1 left2 : Z,
    mergeTopAndBottom Demo.platform false (Demo.image 40 25) (Demo.image 40 25)
    = inr [Demo.byte 40; Demo.byte 50;
           Demo.byte left1; Demo.byte 0; Demo.byte 40; Demo.byte 25;
           Demo.byte left2; Demo.byte 25; Demo.byte 40; Demo.byte 25]
    /\ left1 = 0 /\ left2 = 0.
Proof.
  destruct (mergeTopAndBottom_layout Demo.platform false
              (Demo.image 40 25) (Demo.image 40 25) 40 25 40 25)
    as (left1 & left2 & Hmerge & _ & _ & Hsame);
    [repeat split; reflexivity .. |].
  destruct Hsame as (_ & _ & -> & ->); [reflexivity ..|].
  exists 0, 0. rewrite Hmerge. repeat split; reflexivity.
Defined.

(** ** The effects of a job *)

Lemma mergePromise_effects (P : Platform) (self : ImageVideoProcessor)
    (sched : Schedule) (index : nat) (pair : ImagePair) :
  (exists e, mergePromise P self sched index pair = ([], inl e))
  \/ (exists buffer,
        mergeImages P (races sched index) (first pair) (second pair) = inr buffer
        /\ fs_writeFile P (framePath P self index) buffer = inr ()
        /\ mergePromise P self sched index pair
           = ([WriteFile (framePath P self index) buffer], inr ())).
Proof.
  unfold mergePromise.
  destruct (mergeImages P (races sched index) (first pair) (second pair))
    as [e|buffer]; [left; eauto|].
  destruct (fs_writeFile P (framePath P self index) buffer) as [e|[]] eqn:Hw;
    [left; eauto|].
  right. exists buffer. auto.
Qed.

Lemma pair_effects_no_encoder (P : Platform) (self : ImageVideoProcessor)
    (sched : Schedule) (imagePairs : list ImagePair) (order : list nat) :
  encoder_runs (pair_effects (imap (mergePromise P self sched) imagePairs) order) = [].
Proof.
  unfold pair_effects, encoder_runs.
  induction order as [|i order IH]; [reflexivity|].
  rewrite bind_cons, omap_app, IH, app_nil_r.
  rewrite list_lookup_imap.
  destruct (imagePairs !! i) as [pair|]; [|reflexivity]. simpl.
  destruct (mergePromise_effects P self sched i pair)
    as [[e ->]|(buffer & _ & _ & ->)]; reflexivity.
Qed.

Lemma job_encoder_runs (P : Platform) (self : ImageVideoProcessor)
    (sched : Schedule) (imagePairs : list ImagePair) :
  let job := processImagesAndCreateVideo P self sched imagePairs in
  (exists stream, job.2 = Fulfilled stream
     /\ encoder_runs job.1 = [encoderCommand self (outputDir self)])
  \/ (exists e, job.2 = Rejected e /\ encoder_runs job.1 = []).
Proof.
  unfold processImagesAndCreateVideo.
  destruct (fs_mkdir P (outputDir self)) as [e|[]]; [right; eauto|].
  destruct (promise_all _ _) as [e|?].
  - right. exists e. split; [reflexivity|].
    cbn [fst]. unfold encoder_runs. cbn [omap list_omap].
    apply pair_effects_no_encoder.
  - left. eexists. split; [reflexivity|].
    cbn [fst createVideoFromImages]. unfold encoder_runs.
    cbn [omap list_omap]. rewrite omap_app.
    fold (encoder_runs (pair_effects (imap (mergePromise P self sched) imagePairs)
                          (settle_order sched))).
    rewrite pair_effects_no_encoder. reflexivity.
Qed.

(** ** The streaming encoder *)

(** C8: the command handed to ffmpeg has the input pattern
    <outputDir>/%d.jpg with the frame rate of the processor as its input
    rate, which is 24 when the options give none, the format mp4, the codec
    libx264 and the output option -movflags frag_keyframe+empty_moov; a job
    starts no other command. *)
Theorem encoder_invocation (P : Platform) (options : Options.t)
    (sched : Schedule) (imagePairs : list ImagePair) :
  let self := new_ImageVideoProcessor P options in
  let command := (createVideoFromImages self (outputDir self)).1 in
  inputs command
  = [ {| source := outputDir self +:+ "/%d.jpg";
         input_fps := Some (default 24 (Options.fps options)) |} ]
  /\ (Options.fps options = None -> fps self = 24)
  /\ (forall n, Options.fps options = Some n -> fps self = n)
  /\ format command = Some "mp4"
  /\ outputOptions command = ["-movflags frag_keyframe+empty_moov"]
  /\ videoCodec command = Some "libx264"
  /\ (forall c,
        c ∈ encoder_runs (processImagesAndCreateVideo P self sched imagePairs).1 ->
        c = command).
Proof.
  intros self command.
  repeat split; try reflexivity.
  - intros H. subst self. simpl. rewrite H. reflexivity.
  - intros n H. subst self. simpl. rewrite H. reflexivity.
  - intros c Hc.
    destruct (job_encoder_runs P self sched imagePairs)
      as [(stream & _ & Hruns)|(e & _ & Hruns)]; rewrite Hruns in Hc.
    + apply list_elem_of_singleton in Hc. exact Hc.
    + apply elem_of_nil in Hc. destruct Hc.
Qed.

(** After the executor the promise is fulfilled, and no event of the
    encoder changes that. *)
Lemma encoder_run_promise (st : VideoState) (evs : list EncoderEvent)
    (stream : ReadableStream) :
  promise st = Fulfilled stream ->
  promise (encoder_run st evs) = Fulfilled stream.
Proof.
  unfold encoder_run. revert st.
  induction evs as [|ev evs IH]; intros st Hst; [exact Hst|].
  simpl. apply IH. destruct ev; simpl; rewrite ?Hst; reflexivity.
Qed.

Lemma encoder_run_no_error (st : VideoState) (evs : list EncoderEvent) :
  (forall e, StreamError e ∉ delivered st) ->
  forall e, StreamError e ∉ delivered (encoder_run st evs).
Proof.
  unfold encoder_run. revert st.
  induction evs as [|ev evs IH]; intros st Hst; [exact Hst|].
  simpl. apply IH. intros e.
  destruct ev; simpl; try destruct (spawned st); try apply Hst;
    rewrite elem_of_app, list_elem_of_singleton;
    (intros [H|H]; [exact (Hst e H) | discriminate H]).
Qed.

(** C3, on the code: the process fails after the stream was returned and
    after a chunk was delivered.  The ['error'] handler writes to the
    console and calls [reject] on a promise that is already fulfilled, and
    the reader of the stream observes the chunk and a normal end, exactly as
    when the process succeeds.  The same holds after any other history of
    the encoder, and whatever the encoder does, the stream never carries an
    error. *)
Theorem encoder_failure_looks_like_end (self : ImageVideoProcessor)
    (inputDir commandLine : string) (chunk : Buffer) (err : Error)
    (stdout stderr : string) :
  let started := (createVideoFromImages self inputDir).2 in
  let failed :=
    encoder_run started [OnStart commandLine; OnData chunk; OnError err stdout stderr] in
  let finished := encoder_run started [OnStart commandLine; OnData chunk; OnEnd] in
  promise started = Fulfilled (PassThrough (encoderCommand self inputDir))
  /\ promise failed = promise started
  /\ delivered failed = [Chunk chunk; EndOfStream]
  /\ delivered failed = delivered finished
  /\ (forall history,
        delivered (encoder_run started (history ++ [OnError err stdout stderr]))
        = delivered (encoder_run started (history ++ [OnEnd])))
  /\ (forall evs e, StreamError e ∉ delivered (encoder_run started evs)).
Proof.
  intros started failed finished.
  split; [reflexivity|]. split; [reflexivity|]. split; [reflexivity|].
  split; [reflexivity|]. split.
  - intros history. unfold encoder_run. rewrite !foldl_app. reflexivity.
  - intros evs. apply encoder_run_no_error. intros e He.
    apply elem_of_nil in He. destruct He.
Qed.

(** An ['error'] that fluent-ffmpeg reports before it has spawned a process
    is logged as well and changes neither the promise nor the stream, which
    stays open: the reader gets neither data nor an end nor an error. *)
Lemma error_before_spawn_leaves_stream_open (self : ImageVideoProcessor)
    (inputDir : string) (err : Error) (stdout stderr : string) :
  let started := (createVideoFromImages self inputDir).2 in
  let failed := encoder_run started [OnError err stdout stderr] in
  promise failed = promise started /\ delivered failed = []
  /\ console failed = ["FFmpeg error: " +:+ message err;
                       "stdout: " +:+ stdout; "stderr: " +:+ stderr].
Proof. repeat split. Qed.

(** ** Frame sequencing *)

Lemma first_rejection_None {A : Type} (order : list nat) (ps : list (Result A)) :
  first_rejection order ps = None <->
  forall i e, i ∈ order -> ps !! i <> Some (inl e).
Proof.
  induction order as [|i order IH]; simpl.
  - split; [|reflexivity]. intros _ i e Hi. apply elem_of_nil in Hi. destruct Hi.
  - destruct (ps !! i) as [[e|a]|] eqn:Hi.
    + split; [discriminate|]. intros H. exfalso.
      apply (H i e); [left|exact Hi].
    + rewrite IH. split; intros H j e Hj.
      * apply elem_of_cons in Hj as [->|Hj]; [congruence|auto].
      * apply H. right. exact Hj.
    + rewrite IH. split; intros H j e Hj.
      * apply elem_of_cons in Hj as [->|Hj]; [congruence|auto].
      * apply H. right. exact Hj.
Qed.

Lemma first_rejection_Some {A : Type} (order : list nat) (ps : list (Result A))
    (e : Error) :
  first_rejection order ps = Some e ->
  exists i, i ∈ order /\ ps !! i = Some (inl e).
Proof.
  induction order as [|i order IH]; simpl; [discriminate|].
  destruct (ps !! i) as [[e'|a]|] eqn:Hi.
  - intros [= ->]. exists i. split; [left|exact Hi].
  - intros H. destruct (IH H) as (j & Hj & Hl). exists j. split; [right|]; assumption.
  - intros H. destruct (IH H) as (j & Hj & Hl). exists j. split; [right|]; assumption.
Qed.

Lemma promise_all2_race {A B : Type} (race race' : bool)
    (p1 : Result A) (p2 : Result B) (v : A * B) :
  promise_all2 race p1 p2 = inr v -> promise_all2 race' p1 p2 = inr v.
Proof. destruct p1, p2; simpl; congruence. Qed.

(** A successful merge does not depend on which read settles first. *)
Lemma mergeImages_race (P : Platform) (race race' : bool * bool)
    (image1 image2 : Buffer) (buffer : Buffer) :
  mergeImages P race image1 image2 = inr buffer ->
  mergeImages P race' image1 image2 = inr buffer.
Proof.
  unfold mergeImages, determineMergeDirection, mergeSideBySide, mergeTopAndBottom.
  destruct (getImageDimensions P image1) as [e1|d1],
           (getImageDimensions P image2) as [e2|d2]; simpl; try discriminate.
  destruct (sharp_metadata P image1) as [e1|m1],
           (sharp_metadata P image2) as [e2|m2]; simpl;
    destruct (closerDirection d1 d2); simpl; try discriminate; auto.
Qed.

Lemma mergePromise_succeeds (P : Platform) (self : ImageVideoProcessor)
    (sched : Schedule) (imagePairs : list ImagePair) (i : nat) (pair : ImagePair) :
  imagePairs !! i = Some pair ->
  pair_succeeds P self sched i pair ->
  mergePromise P self sched i pair = ([frameWrite P self sched imagePairs i], inr ()).
Proof.
  intros Hi (buffer & Hmerge & Hwrite).
  unfold mergePromise, frameWrite, frame. rewrite Hi, Hmerge, Hwrite. reflexivity.
Qed.

Lemma mergePromise_fulfilled (P : Platform) (self : ImageVideoProcessor)
    (sched : Schedule) (i : nat) (pair : ImagePair) :
  (forall e, (mergePromise P self sched i pair).2 <> inl e) ->
  pair_succeeds P self sched i pair.
Proof.
  intros Hne.
  destruct (mergePromise_effects P self sched i pair)
    as [[e He]|(buffer & Hmerge & Hwrite & _)].
  - exfalso. apply (Hne e). rewrite He. reflexivity.
  - exists buffer. auto.
Qed.

Lemma pair_effects_succeed (P : Platform) (self : ImageVideoProcessor)
    (sched : Schedule) (imagePairs : list ImagePair) (order : list nat) :
  (forall i, i ∈ order ->
     exists pair, imagePairs !! i = Some pair /\ pair_succeeds P self sched i pair) ->
  pair_effects (imap (mergePromise P self sched) imagePairs) order
  = frameWrite P self sched imagePairs <$> order.
Proof.
  unfold pair_effects.
  induction order as [|i order IH]; intros Hall; [reflexivity|].
  rewrite bind_cons, fmap_cons, IH by (intros j Hj; apply Hall; right; exact Hj).
  destruct (Hall i) as (pair & Hi & Hok); [left|].
  rewrite list_lookup_imap, Hi. simpl.
  rewrite (mergePromise_succeeds P self sched imagePairs i pair Hi Hok).
  reflexivity.
Qed.

Lemma settle_order_complete (order : list nat) {A : Type} (l : list A) (i : nat) :
  order ≡ₚ seq 0 (length l) ->
  i ∈ order <-> is_Some (l !! i).
Proof.
  intros Hperm. rewrite Hperm, elem_of_seq, lookup_lt_is_Some. lia.
Qed.

(** What a job does when the directory can be made and every pair
    succeeds. *)
Lemma job_when_all_succeed (P : Platform) (self : ImageVideoProcessor)
    (sched : Schedule) (imagePairs : list ImagePair) :
  settle_order sched ≡ₚ seq 0 (length imagePairs) ->
  fs_mkdir P (outputDir self) = inr () ->
  (forall i pair, imagePairs !! i = Some pair -> pair_succeeds P self sched i pair) ->
  processImagesAndCreateVideo P self sched imagePairs
  = (Mkdir (outputDir self) true
       :: (frameWrite P self sched imagePairs <$> settle_order sched)
       ++ [FfmpegRun (encoderCommand self (outputDir self))],
     Fulfilled (PassThrough (encoderCommand self (outputDir self)))).
Proof.
  intros Hperm Hmkdir Hall. unfold processImagesAndCreateVideo. rewrite Hmkdir.
  rewrite pair_effects_succeed.
  2:{ intros i Hi. apply (settle_order_complete _ imagePairs) in Hi as [pair Hi];
        [|exact Hperm]. exists pair. split; [exact Hi|]. apply Hall. exact Hi. }
  unfold promise_all.
  assert (Hnone : first_rejection (settle_order sched)
                    ((imap (mergePromise P self sched) imagePairs).*2) = None).
  { apply first_rejection_None. intros i e _.
    rewrite list_lookup_fmap, list_lookup_imap.
    destruct (imagePairs !! i) as [pair|] eqn:Hi; [|discriminate]. simpl.
    rewrite (mergePromise_succeeds P self sched imagePairs i pair Hi (Hall i pair Hi)).
    discriminate. }
  rewrite Hnone. reflexivity.
Qed.

(** Conversely, a job is fulfilled only when the directory was made and
    every pair succeeded. *)
Lemma job_fulfilled_inv (P : Platform) (self : ImageVideoProcessor)
    (sched : Schedule) (imagePairs : list ImagePair) (stream : ReadableStream) :
  settle_order sched ≡ₚ seq 0 (length imagePairs) ->
  (processImagesAndCreateVideo P self sched imagePairs).2 = Fulfilled stream ->
  fs_mkdir P (outputDir self) = inr ()
  /\ (forall i pair, imagePairs !! i = Some pair -> pair_succeeds P self sched i pair).
Proof.
  intros Hperm. unfold processImagesAndCreateVideo.
  destruct (fs_mkdir P (outputDir self)) as [e|[]]; [discriminate|].
  unfold promise_all.
  destruct (first_rejection _ _) as [e|] eqn:Hfirst; [discriminate|].
  intros _. split; [reflexivity|]. intros i pair Hi.
  apply mergePromise_fulfilled. intros e He.
  rewrite first_rejection_None in Hfirst. apply (Hfirst i e).
  - apply (settle_order_complete _ imagePairs); [exact Hperm|]. eauto.
  - rewrite list_lookup_fmap, list_lookup_imap, Hi. simpl. rewrite He. reflexivity.
Qed.

Lemma list_ascii_of_string_app (s t : string) :
  String.list_ascii_of_string (s +:+ t) = String.list_ascii_of_string s ++ String.list_ascii_of_string t.
Proof. induction s as [|a s IH]; simpl; [reflexivity|]. rewrite <- IH. reflexivity. Qed.

Lemma string_app_inj_r (s1 s2 t : string) : s1 +:+ t = s2 +:+ t -> s1 = s2.
Proof.
  intros H. apply (f_equal String.list_ascii_of_string) in H.
  rewrite !list_ascii_of_string_app in H. apply app_inv_tail in H.
  rewrite <- (String.string_of_list_ascii_of_string s1), <- (String.string_of_list_ascii_of_string s2).
  rewrite H. reflexivity.
Qed.

Lemma framePath_inj (P : Platform) (self : ImageVideoProcessor) :
  join_separates_frames P (outputDir self) -> Inj (=) (=) (framePath P self).
Proof.
  intros Hjoin i j H. unfold framePath in H.
  apply Hjoin, string_app_inj_r, (inj pretty) in H. lia.
Qed.

Lemma files_after_app (l1 l2 : list Event) (files : gmap string Buffer) :
  files_after (l1 ++ l2) files = files_after l2 (files_after l1 files).
Proof. unfold files_after. apply foldl_app. Qed.

Lemma files_after_writes (ws : list (string * Buffer)) (files : gmap string Buffer) :
  NoDup ws.*1 ->
  files_after ((fun w => WriteFile w.1 w.2) <$> ws) files = list_to_map ws ∪ files.
Proof.
  unfold files_after. revert files.
  induction ws as [|[path data] ws IH]; intros files Hnd.
  - rewrite list_to_map_nil, (left_id_L ∅ (∪)). reflexivity.
  - rewrite fmap_cons in Hnd. apply NoDup_cons in Hnd as [Hnotin Hnd].
    rewrite fmap_cons, list_to_map_cons. cbn [foldl apply_event fst snd].
    rewrite IH by exact Hnd.
    rewrite <- insert_union_l. symmetry.
    apply insert_union_r, not_elem_of_list_to_map, Hnotin.
Qed.

Lemma frames_paths (P : Platform) (self : ImageVideoProcessor) (sched : Schedule)
    (imagePairs : list ImagePair) (order : list nat) :
  (frames P self sched imagePairs order).*1 = framePath P self <$> order.
Proof. unfold frames. rewrite <- list_fmap_compose. reflexivity. Qed.

Lemma frames_NoDup (P : Platform) (self : ImageVideoProcessor) (sched : Schedule)
    (imagePairs : list ImagePair) (order : list nat) :
  join_separates_frames P (outputDir self) ->
  order ≡ₚ seq 0 (length imagePairs) ->
  NoDup (frames P self sched imagePairs order).*1.
Proof.
  intros Hjoin Hperm. rewrite frames_paths.
  pose proof (framePath_inj P self Hjoin) as Hinj.
  apply (NoDup_fmap_2 _). rewrite Hperm. apply NoDup_seq.
Qed.

Lemma frame_race (P : Platform) (self : ImageVideoProcessor) (sched sched' : Schedule)
    (imagePairs : list ImagePair) (i : nat) (pair : ImagePair) :
  imagePairs !! i = Some pair ->
  pair_succeeds P self sched i pair ->
  pair_succeeds P self sched' i pair
  /\ frame P sched' imagePairs i = frame P sched imagePairs i.
Proof.
  intros Hi (buffer & Hmerge & Hwrite).
  pose proof (mergeImages_race P _ (races sched' i) _ _ _ Hmerge) as Hmerge'.
  split; [exists buffer; auto|].
  unfold frame. rewrite Hi, Hmerge, Hmerge'. reflexivity.
Qed.

Lemma job_files (P : Platform) (self : ImageVideoProcessor) (sched : Schedule)
    (imagePairs : list ImagePair) (files : gmap string Buffer) :
  settle_order sched ≡ₚ seq 0 (length imagePairs) ->
  join_separates_frames P (outputDir self) ->
  fs_mkdir P (outputDir self) = inr () ->
  (forall i pair, imagePairs !! i = Some pair -> pair_succeeds P self sched i pair) ->
  files_after (processImagesAndCreateVideo P self sched imagePairs).1 files
  = list_to_map (frames P self sched imagePairs (seq 0 (length imagePairs))) ∪ files.
Proof.
  intros Hperm Hjoin Hmkdir Hall.
  rewrite (job_when_all_succeed P self sched imagePairs Hperm Hmkdir Hall).
  cbn [fst]. change (Mkdir ?d ?b :: ?l) with ([Mkdir d b] ++ l).
  rewrite !files_after_app. cbn [files_after foldl apply_event].
  change (foldl apply_event files ?l) with (files_after l files).
  replace (frameWrite P self sched imagePairs <$> settle_order sched)
    with ((fun w : string * Buffer => WriteFile w.1 w.2)
            <$> frames P self sched imagePairs (settle_order sched))
    by (unfold frames; rewrite <- list_fmap_compose; reflexivity).
  rewrite files_after_writes by (apply frames_NoDup; assumption).
  f_equal. apply list_to_map_proper.
  - apply frames_NoDup; assumption.
  - unfold frames. rewrite Hperm. reflexivity.
Qed.

Lemma job_written_paths (P : Platform) (self : ImageVideoProcessor) (sched : Schedule)
    (imagePairs : list ImagePair) :
  settle_order sched ≡ₚ seq 0 (length imagePairs) ->
  fs_mkdir P (outputDir self) = inr () ->
  (forall i pair, imagePairs !! i = Some pair -> pair_succeeds P self sched i pair) ->
  written_paths (processImagesAndCreateVideo P self sched imagePairs).1
  = framePath P self <$> settle_order sched.
Proof.
  intros Hperm Hmkdir Hall.
  rewrite (job_when_all_succeed P self sched imagePairs Hperm Hmkdir Hall).
  cbn [fst]. unfold written_paths. cbn [omap list_omap].
  rewrite omap_app. cbn [omap list_omap]. rewrite app_nil_r.
  clear Hperm. induction (settle_order sched) as [|i order IH]; [reflexivity|].
  rewrite !fmap_cons. cbn [omap list_omap frameWrite]. rewrite IH. reflexivity.
Qed.

(** C2: when the directory can be made and all N pairs are processed
    successfully, the job writes exactly the files 1.jpg ... N.jpg of the
    output directory, each once; afterwards i.jpg holds the merge of the
    pair at position i-1, a buffer that depends on that pair alone, and no
    other file has changed; and the files are the same for every order in
    which the concurrent operations complete. *)
Theorem frame_sequencing (P : Platform) (self : ImageVideoProcessor)
    (sched : Schedule) (imagePairs : list ImagePair) (files : gmap string Buffer) :
  settle_order sched ≡ₚ seq 0 (length imagePairs) ->
  join_separates_frames P (outputDir self) ->
  fs_mkdir P (outputDir self) = inr () ->
  (forall i pair, imagePairs !! i = Some pair -> pair_succeeds P self sched i pair) ->
  let job := processImagesAndCreateVideo P self sched imagePairs in
  let file (k : nat) := join P (outputDir self) (pretty k +:+ ".jpg") in
  written_paths job.1 ≡ₚ file <$> seq 1 (length imagePairs)
  /\ NoDup (written_paths job.1)
  /\ (forall i pair, imagePairs !! i = Some pair ->
        exists buffer,
          (forall race, mergeImages P race (first pair) (second pair) = inr buffer)
          /\ files_after job.1 files !! file (i + 1)%nat = Some buffer)
  /\ (forall path, path ∉ written_paths job.1 ->
        files_after job.1 files !! path = files !! path)
  /\ (forall sched', settle_order sched' ≡ₚ seq 0 (length imagePairs) ->
        files_after (processImagesAndCreateVideo P self sched' imagePairs).1 files
        = files_after job.1 files).
Proof.
  intros Hperm Hjoin Hmkdir Hall job file.
  assert (Hpaths : written_paths job.1 = framePath P self <$> settle_order sched)
    by (apply job_written_paths; assumption).
  assert (Hfiles : files_after job.1 files
                   = list_to_map (frames P self sched imagePairs
                                    (seq 0 (length imagePairs))) ∪ files)
    by (apply job_files; assumption).
  assert (Hnd : NoDup (frames P self sched imagePairs (seq 0 (length imagePairs))).*1)
    by (apply frames_NoDup; [assumption|reflexivity]).
  split; [|split; [|split; [|split]]].
  - rewrite Hpaths, Hperm, <- fmap_S_seq, <- list_fmap_compose.
    apply eq_subrelation; [apply _|]. apply list_fmap_ext. intros _ i _.
    unfold framePath, file. simpl. rewrite Nat.add_1_r. reflexivity.
  - rewrite Hpaths. pose proof (framePath_inj P self Hjoin) as Hinj.
    apply (NoDup_fmap_2 _). rewrite Hperm. apply NoDup_seq.
  - intros i pair Hi. destruct (Hall i pair Hi) as (buffer & Hmerge & Hwrite).
    exists buffer. split.
    + intros race. exact (mergeImages_race P _ race _ _ _ Hmerge).
    + rewrite Hfiles. apply lookup_union_Some_l.
      apply elem_of_list_to_map; [exact Hnd|].
      unfold frames. apply list_elem_of_fmap. exists i. split.
      * unfold framePath, frame, file. rewrite Hi, Hmerge. reflexivity.
      * apply elem_of_seq. apply lookup_lt_Some in Hi. lia.
  - intros path Hnot. rewrite Hfiles. apply lookup_union_r.
    apply not_elem_of_list_to_map. rewrite frames_paths.
    rewrite Hpaths, Hperm in Hnot. exact Hnot.
  - intros sched' Hperm'. rewrite Hfiles.
    assert (Hall' : forall i pair, imagePairs !! i = Some pair ->
                      pair_succeeds P self sched' i pair).
    { intros i pair Hi.
      apply (frame_race P self sched sched' imagePairs i pair Hi (Hall i pair Hi)). }
    rewrite (job_files P self sched' imagePairs files Hperm' Hjoin Hmkdir Hall').
    f_equal. f_equal. unfold frames. apply list_fmap_ext. intros k i Hi.
    apply list_elem_of_lookup_2, elem_of_seq in Hi.
    destruct (lookup_lt_is_Some_2 imagePairs i) as [pair Hpair]; [lia|].
    f_equal.
    apply (frame_race P self sched sched' imagePairs i pair Hpair (Hall i pair Hpair)).
Qed.

Lemma demo_join_separates_frames (dir : string) :
  join_separates_frames Demo.platform dir.
Proof.
  intros i j H. simpl in H.
  apply (inj (String.app dir)), (inj (String.app "/")) in H. exact H.
Qed.

Lemma frame_sequencing_witness :
  let job := processImagesAndCreateVideo Demo.platform Demo.processor
               (Demo.backwards 3) Demo.pairs in
  written_paths job.1 ≡ₚ ["/data/job/1.jpg"; "/data/job/2.jpg"; "/data/job/3.jpg"]
  /\ NoDup (written_paths job.1)
  /\ files_after job.1 ∅ !! "/data/job/2.jpg"
     = Some [Demo.byte 200; Demo.byte 300; Demo.byte 50; Demo.byte 0;
             Demo.byte 100; Demo.byte 200; Demo.byte 0; Demo.byte 200;
             Demo.byte 200; Demo.byte 100].
Proof.
  destruct (frame_sequencing Demo.platform Demo.processor (Demo.backwards 3)
              Demo.pairs ∅) as (Hexact & Hnodup & Hframe & _).
  - exact (reverse_Permutation (seq 0 3)).
  - apply demo_join_separates_frames.
  - reflexivity.
  - intros [|[|[|i]]] pair; simpl; intros [= <-]; eexists; split; vm_compute; reflexivity.
  - split; [exact Hexact|]. split; [exact Hnodup|].
    destruct (Hframe 1%nat _ eq_refl) as (buffer & Hmerge & Hfile).
    specialize (Hmerge (false, false)). vm_compute in Hmerge.
    injection Hmerge as <-. exact Hfile.
Defined.

(** C7: when the job is fulfilled with a stream, its effects are the
    creation of the directory, then one write for every pair, then the start
    of the encoder, and nothing else; the stream is the one the encoder pipes
    into; and the promise is fulfilled by the executor that starts the
    encoder, before any event of the encoder and whatever the encoder does
    later. *)
Theorem stream_returned_after_writes (P : Platform) (self : ImageVideoProcessor)
    (sched : Schedule) (imagePairs : list ImagePair) (stream : ReadableStream) :
  settle_order sched ≡ₚ seq 0 (length imagePairs) ->
  (processImagesAndCreateVideo P self sched imagePairs).2 = Fulfilled stream ->
  let command := encoderCommand self (outputDir self) in
  let started := (createVideoFromImages self (outputDir self)).2 in
  let writes := frameWrite P self sched imagePairs <$> settle_order sched in
  (processImagesAndCreateVideo P self sched imagePairs).1
  = Mkdir (outputDir self) true :: writes ++ [FfmpegRun command]
  /\ (forall i pair, imagePairs !! i = Some pair ->
        pair_succeeds P self sched i pair
        /\ frameWrite P self sched imagePairs i ∈ writes)
  /\ encoder_runs (Mkdir (outputDir self) true :: writes) = []
  /\ stream = PassThrough command
  /\ promise started = Fulfilled stream
  /\ (forall evs, promise (encoder_run started evs) = Fulfilled stream).
Proof.
  intros Hperm Hjob command started writes.
  destruct (job_fulfilled_inv P self sched imagePairs stream Hperm Hjob)
    as [Hmkdir Hall].
  pose proof (job_when_all_succeed P self sched imagePairs Hperm Hmkdir Hall) as Heq.
  rewrite Heq in Hjob. cbn [snd] in Hjob. injection Hjob as <-.
  split; [rewrite Heq; reflexivity|].
  split; [|split; [|split; [reflexivity|split; [reflexivity|]]]].
  - intros i pair Hi. split; [exact (Hall i pair Hi)|].
    apply list_elem_of_fmap. exists i. split; [reflexivity|].
    apply (settle_order_complete _ imagePairs); [exact Hperm|]. eauto.
  - unfold encoder_runs, writes. cbn [omap list_omap].
    clear. induction (settle_order sched) as [|i order IH]; [reflexivity|].
    rewrite fmap_cons. cbn [omap list_omap frameWrite]. exact IH.
  - intros evs. apply encoder_run_promise. reflexivity.
Qed.

Lemma stream_returned_after_writes_witness :
  (processImagesAndCreateVideo Demo.platform Demo.processor
     (Demo.backwards 3) Demo.pairs).1
  = Mkdir "/data/job" true
      :: (frameWrite Demo.platform Demo.processor (Demo.backwards 3) Demo.pairs
            <$> [2; 1; 0]%nat)
      ++ [FfmpegRun (encoderCommand Demo.processor "/data/job")].
Proof.
  refine (proj1 (stream_returned_after_writes Demo.platform Demo.processor
                   (Demo.backwards 3) Demo.pairs
                   (PassThrough (encoderCommand Demo.processor "/data/job")) _ _)).
  - exact (reverse_Permutation (seq 0 3)).
  - vm_compute. reflexivity.
Defined.

Lemma pair_effects_nil (order : list nat) :
  pair_effects [] order = [].
Proof.
  unfold pair_effects. induction order as [|i order IH]; [reflexivity|].
  rewrite bind_cons, IH. reflexivity.
Qed.

(** C10: for an empty list of pairs, and a directory that can be made, the
    job makes the directory, writes no file, starts the encoder on the
    directory and is fulfilled with the stream. *)
Theorem empty_job (P : Platform) (self : ImageVideoProcessor) (sched : Schedule) :
  fs_mkdir P (outputDir self) = inr () ->
  let command := encoderCommand self (outputDir self) in
  processImagesAndCreateVideo P self sched []
  = ([Mkdir (outputDir self) true; FfmpegRun command], Fulfilled (PassThrough command))
  /\ written_paths (processImagesAndCreateVideo P self sched []).1 = []
  /\ inputs command
     = [ {| source := outputDir self +:+ "/%d.jpg"; input_fps := Some (fps self) |} ].
Proof.
  intros Hmkdir command.
  assert (Hjob : processImagesAndCreateVideo P self sched []
                 = ([Mkdir (outputDir self) true; FfmpegRun command],
                    Fulfilled (PassThrough command))).
  { unfold processImagesAndCreateVideo. rewrite Hmkdir. cbn [imap].
    rewrite pair_effects_nil. unfold promise_all.
    assert (Hnone : first_rejection (settle_order sched) (@nil (Result ())) = None).
    { apply first_rejection_None. intros i e _. rewrite lookup_nil. discriminate. }
    cbn [fmap list_fmap]. rewrite Hnone. reflexivity. }
  rewrite Hjob. repeat split.
Qed.

Lemma empty_job_witness :
  processImagesAndCreateVideo Demo.platform Demo.processor (Demo.in_order 0) []
  = ([Mkdir "/data/job" true; FfmpegRun (encoderCommand Demo.processor "/data/job")],
     Fulfilled (PassThrough (encoderCommand Demo.processor "/data/job"))).
Proof.
  exact (proj1 (empty_job Demo.platform Demo.processor (Demo.in_order 0) eq_refl)).
Defined.

(** ** Images without dimensions *)

Lemma getImageDimensions_lacking (P : Platform) (image : Buffer) :
  lacks_dimensions P image ->
  getImageDimensions P image = inl invalid_metadata.
Proof.
  intros (metadata & Hmeta & Hfalsy). unfold getImageDimensions.
  rewrite Hmeta. simpl. rewrite Hfalsy. reflexivity.
Qed.

Lemma promise_all2_rejects {A B : Type} (race : bool) (p1 : Result A) (p2 : Result B) :
  (exists e, p1 = inl e) \/ (exists e, p2 = inl e) ->
  exists e, promise_all2 race p1 p2 = inl e.
Proof.
  intros [[e ->]|[e ->]]; [destruct p2|destruct p1]; simpl; eauto.
Qed.

Lemma mergePromise_lacking (P : Platform) (self : ImageVideoProcessor)
    (sched : Schedule) (i : nat) (pair : ImagePair) (image : Buffer) :
  image = first pair \/ image = second pair ->
  lacks_dimensions P image ->
  exists e, mergePromise P self sched i pair = ([], inl e).
Proof.
  intros Hwhich Hlacks.
  apply getImageDimensions_lacking in Hlacks.
  destruct (promise_all2_rejects (races sched i).1
              (getImageDimensions P (first pair)) (getImageDimensions P (second pair)))
    as [e He].
  { destruct Hwhich as [<-|<-]; eauto. }
  exists e. unfold mergePromise, mergeImages, determineMergeDirection.
  rewrite He. reflexivity.
Qed.

(** C6, as stated, fails: the second pair holds an image without a height,
    the first pair holds a buffer that sharp cannot read and settles first,
    and the job is rejected with the error of sharp. *)
Lemma other_rejection_settles_first :
  ~ (lacks_dimensions Demo.platform [Demo.byte 3] ->
     (processImagesAndCreateVideo Demo.platform Demo.processor
        (Demo.in_order 2) Demo.faulty_pairs).2
     = Rejected invalid_metadata).
Proof.
  intros H.
  assert (Hlacks : lacks_dimensions Demo.platform [Demo.byte 3]).
  { eexists. split; reflexivity. }
  specialize (H Hlacks). vm_compute in H. discriminate H.
Qed.

(** * Further properties of the processor *)

(** ** Geometry of the two layouts *)

Lemma half_bounds (a : Z) : 0 <= a -> 0 <= a `div` 2 /\ 2 * (a `div` 2) <= a <= 2 * (a `div` 2) + 1.
Proof.
  intros Ha.
  pose proof (Z.div_mod a 2 ltac:(lia)) as E.
  pose proof (Z.mod_pos_bound a 2 ltac:(lia)) as B.
  lia.
Qed.

(** X1: side by side, both images lie within the canvas, they share no
    pixel, and each is centred vertically: the margin below an image is the
    margin above it or one pixel more. *)
Theorem mergeSideBySide_geometry (P : Platform) (race : bool)
    (image1 image2 : Buffer) (w1 h1 w2 h2 : Z) :
  has_dimensions P image1 w1 h1 ->
  has_dimensions P image2 w2 h2 ->
  exists canvas o1 o2,
    mergeSideBySide P race image1 image2
    = sharp_toBuffer P {| create := canvas; composite := [o1; o2]; output := jpeg |}
    /\ ov_input o1 = image1 /\ ov_input o2 = image2
    /\ inside canvas o1 w1 h1 /\ inside canvas o2 w2 h2
    /\ apart o1 w1 h1 o2
    /\ 0 <= (create_height canvas - h1 - ov_top o1) - ov_top o1 <= 1
    /\ 0 <= (create_height canvas - h2 - ov_top o2) - ov_top o2 <= 1
    /\ create_width canvas * create_height canvas >= w1 * h1 + w2 * h2.
Proof.
  intros (Hm1 & Hw1 & Hh1) (Hm2 & Hw2 & Hh2).
  eexists _, _, _. split.
  - unfold mergeSideBySide. rewrite Hm1, Hm2. cbn [promise_all2 mbind Result_bind].
    cbn [meta_width meta_height]. rewrite all_truthy by assumption.
    reflexivity.
  - unfold inside, apart. cbn.
    pose proof (half_bounds (Z.max h1 h2 - h1) ltac:(lia)) as B1.
    pose proof (half_bounds (Z.max h1 h2 - h2) ltac:(lia)) as B2.
    repeat split; try lia. nia.
Qed.

Lemma mergeSideBySide_geometry_witness :
  exists canvas o1 o2,
    mergeSideBySide Demo.platform false (Demo.image 30 10) (Demo.image 20 17)
    = Demo.toBuffer {| create := canvas; composite := [o1; o2]; output := jpeg |}
    /\ inside canvas o1 30 10 /\ inside canvas o2 20 17.
Proof.
  destruct (mergeSideBySide_geometry Demo.platform false
              (Demo.image 30 10) (Demo.image 20 17) 30 10 20 17)
    as (canvas & o1 & o2 & Hmerge & _ & _ & Hin1 & Hin2 & _);
    [repeat split; reflexivity .. |].
  exists canvas, o1, o2. auto.
Defined.

(** X2: stacked, both images lie within the canvas, they share no pixel,
    and each is centred horizontally: the margin to the right of an image
    is the margin to its left or one pixel more. *)
Theorem mergeTopAndBottom_geometry (P : Platform) (race : bool)
    (image1 image2 : Buffer) (w1 h1 w2 h2 : Z) :
  has_dimensions P image1 w1 h1 ->
  has_dimensions P image2 w2 h2 ->
  exists canvas o1 o2,
    mergeTopAndBottom P race image1 image2
    = sharp_toBuffer P {| create := canvas; composite := [o1; o2]; output := jpeg |}
    /\ ov_input o1 = image1 /\ ov_input o2 = image2
    /\ inside canvas o1 w1 h1 /\ inside canvas o2 w2 h2
    /\ apart o1 w1 h1 o2
    /\ 0 <= (create_width canvas - w1 - ov_left o1) - ov_left o1 <= 1
    /\ 0 <= (create_width canvas - w2 - ov_left o2) - ov_left o2 <= 1
    /\ create_width canvas * create_height canvas >= w1 * h1 + w2 * h2.
Proof.
  intros (Hm1 & Hw1 & Hh1) (Hm2 & Hw2 & Hh2).
  eexists _, _, _. split.
  - unfold mergeTopAndBottom. rewrite Hm1, Hm2. cbn [promise_all2 mbind Result_bind].
    cbn [meta_width meta_height]. rewrite all_truthy by assumption.
    reflexivity.
  - unfold inside, apart. cbn.
    pose proof (half_bounds (Z.max w1 w2 - w1) ltac:(lia)) as B1.
    pose proof (half_bounds (Z.max w1 w2 - w2) ltac:(lia)) as B2.
    repeat split; try lia. nia.
Qed.

Lemma mergeTopAndBottom_geometry_witness :
  exists canvas o1 o2,
    mergeTopAndBottom Demo.platform false (Demo.image 30 10) (Demo.image 21 17)
    = Demo.toBuffer {| create := canvas; composite := [o1; o2]; output := jpeg |}
    /\ inside canvas o1 30 10 /\ inside canvas o2 21 17.
Proof.
  destruct (mergeTopAndBottom_geometry Demo.platform false
              (Demo.image 30 10) (Demo.image 21 17) 30 10 21 17)
    as (canvas & o1 & o2 & Hmerge & _ & _ & Hin1 & Hin2 & _);
    [repeat split; reflexivity .. |].
  exists canvas, o1, o2. auto.
Defined.

(** ** When a merge is fulfilled and when it is rejected *)

Lemma falsy_false (x : option Z) :
  falsy x = false <-> exists v, x = Some v /\ v <> 0.
Proof.
  destruct x as [v|]; simpl.
  - rewrite Z.eqb_neq. split; [eauto|]. intros (v' & [= <-] & Hv). exact Hv.
  - split; [discriminate|]. intros (v & Hv & _). discriminate Hv.
Qed.

Lemma readable_truthy (w1 h1 w2 h2 : Z) :
  w1 <> 0 -> h1 <> 0 -> w2 <> 0 -> h2 <> 0 ->
  falsy (Some w1) || falsy (Some w2) || falsy (Some h1) || falsy (Some h2) = false.
Proof.
  intros. simpl.
  repeat match goal with
         | |- context [?x =? 0] => destruct (Z.eqb_spec x 0); [congruence|]
         end.
  reflexivity.
Qed.

Lemma getImageDimensions_cases (P : Platform) (image : Buffer) :
  (exists e, sharp_metadata P image = inl e /\ getImageDimensions P image = inl e)
  \/ (lacks_dimensions P image /\ getImageDimensions P image = inl invalid_metadata)
  \/ (exists w h, readable_as P image w h
        /\ getImageDimensions P image = inr (dimensions w h)).
Proof.
  unfold getImageDimensions.
  destruct (sharp_metadata P image) as [e|[mw mh]] eqn:Hmeta; [left; eauto|].
  right. cbn [mbind Result_bind meta_width meta_height].
  destruct (falsy mw || falsy mh) eqn:Hfalsy.
  - left. split; [|reflexivity]. exists {| meta_width := mw; meta_height := mh |}.
    split; [exact Hmeta | exact Hfalsy].
  - right. apply orb_false_elim in Hfalsy as [Hw Hh].
    apply falsy_false in Hw as (w & -> & Hw), Hh as (h & -> & Hh).
    exists w, h. split; [|reflexivity]. repeat split; assumption.
Qed.

Lemma merge_readable (P : Platform) (race : bool) (image1 image2 : Buffer)
    (w1 h1 w2 h2 : Z) :
  readable_as P image1 w1 h1 ->
  readable_as P image2 w2 h2 ->
  mergeSideBySide P race image1 image2
  = sharp_toBuffer P (sideBySide image1 image2 w1 h1 w2 h2)
  /\ mergeTopAndBottom P race image1 image2
     = sharp_toBuffer P (topAndBottom image1 image2 w1 h1 w2 h2).
Proof.
  intros (Hm1 & Hw1 & Hh1) (Hm2 & Hw2 & Hh2).
  unfold mergeSideBySide, mergeTopAndBottom. rewrite Hm1, Hm2.
  cbn [promise_all2 mbind Result_bind meta_width meta_height].
  rewrite readable_truthy by assumption. split; reflexivity.
Qed.

Lemma mergeImages_readable (P : Platform) (race : bool * bool)
    (image1 image2 : Buffer) (w1 h1 w2 h2 : Z) :
  readable_as P image1 w1 h1 ->
  readable_as P image2 w2 h2 ->
  mergeImages P race image1 image2
  = sharp_toBuffer P
      (layout (closerDirection (dimensions w1 h1) (dimensions w2 h2))
         image1 image2 w1 h1 w2 h2).
Proof.
  intros H1 H2.
  destruct (merge_readable P race.2 image1 image2 w1 h1 w2 h2 H1 H2) as [Hs Ht].
  unfold mergeImages, determineMergeDirection.
  destruct (getImageDimensions_cases P image1)
    as [(e & He & _)|[((m & Hm & Hf) & _)|(w & h & (Hm & _) & ->)]];
    destruct H1 as (H1 & Hw1 & Hh1).
  - congruence.
  - rewrite H1 in Hm. injection Hm as <-. simpl in Hf.
    apply orb_true_iff in Hf as [Hf|Hf]; apply Z.eqb_eq in Hf; congruence.
  - rewrite H1 in Hm. injection Hm as <- <-.
    destruct (getImageDimensions_cases P image2)
      as [(e & He & _)|[((m & Hm & Hf) & _)|(w & h & (Hm & _) & ->)]];
      destruct H2 as (H2 & Hw2 & Hh2).
    + congruence.
    + rewrite H2 in Hm. injection Hm as <-. simpl in Hf.
      apply orb_true_iff in Hf as [Hf|Hf]; apply Z.eqb_eq in Hf; congruence.
    + rewrite H2 in Hm. injection Hm as <- <-.
      cbn [promise_all2 mbind Result_bind mret Result_ret].
      destruct (closerDirection (dimensions w1 h1) (dimensions w2 h2)); assumption.
Qed.

(** How [mergeImages] can be rejected. *)
Lemma mergeImages_cases (P : Platform) (race : bool * bool) (image1 image2 : Buffer) :
  (exists e, mergeImages P race image1 image2 = inl e
     /\ (sharp_metadata P image1 = inl e \/ sharp_metadata P image2 = inl e
         \/ (e = invalid_metadata
             /\ (lacks_dimensions P image1 \/ lacks_dimensions P image2))))
  \/ (exists w1 h1 w2 h2,
        readable_as P image1 w1 h1 /\ readable_as P image2 w2 h2).
Proof.
  destruct (getImageDimensions_cases P image1)
    as [(e1 & Hm1 & Hd1)|[(Hl1 & Hd1)|(w1 & h1 & Hr1 & Hd1)]];
    destruct (getImageDimensions_cases P image2)
      as [(e2 & Hm2 & Hd2)|[(Hl2 & Hd2)|(w2 & h2 & Hr2 & Hd2)]];
    try (right; exists w1, h1, w2, h2; split; assumption);
    left; unfold mergeImages, determineMergeDirection; rewrite Hd1, Hd2;
    cbn [promise_all2 mbind Result_bind];
    try destruct race.1; eexists; (split; [reflexivity|]); auto.
Qed.

(** X3: a direct call of [mergeSideBySide] or [mergeTopAndBottom] is
    fulfilled exactly when the metadata of both images give a width and a
    height other than 0 and sharp renders the pipeline of that layout; the
    buffer is the rendering. *)
Theorem merge_fulfilled_iff (P : Platform) (race : bool)
    (image1 image2 buffer : Buffer) :
  (mergeSideBySide P race image1 image2 = inr buffer
   <-> exists w1 h1 w2 h2,
         readable_as P image1 w1 h1 /\ readable_as P image2 w2 h2
         /\ sharp_toBuffer P (sideBySide image1 image2 w1 h1 w2 h2) = inr buffer)
  /\ (mergeTopAndBottom P race image1 image2 = inr buffer
      <-> exists w1 h1 w2 h2,
            readable_as P image1 w1 h1 /\ readable_as P image2 w2 h2
            /\ sharp_toBuffer P (topAndBottom image1 image2 w1 h1 w2 h2) = inr buffer).
Proof.
  assert (Hcases :
    (exists w1 h1 w2 h2, readable_as P image1 w1 h1 /\ readable_as P image2 w2 h2)
    \/ (exists e, mergeSideBySide P race image1 image2 = inl e
                  /\ mergeTopAndBottom P race image1 image2 = inl e)).
  { unfold mergeSideBySide, mergeTopAndBottom, readable_as.
    destruct (sharp_metadata P image1) as [e1|[mw1 mh1]],
             (sharp_metadata P image2) as [e2|[mw2 mh2]];
      cbn [promise_all2 mbind Result_bind meta_width meta_height]; eauto.
    destruct (falsy mw1 || falsy mw2 || falsy mh1 || falsy mh2) eqn:Hf; [eauto|].
    left. apply orb_false_elim in Hf as [Hf Hh2].
    apply orb_false_elim in Hf as [Hf Hh1].
    apply orb_false_elim in Hf as [Hw1 Hw2].
    apply falsy_false in Hw1 as (w1 & -> & ?), Hw2 as (w2 & -> & ?),
      Hh1 as (h1 & -> & ?), Hh2 as (h2 & -> & ?).
    exists w1, h1, w2, h2. auto. }
  destruct Hcases as [(w1 & h1 & w2 & h2 & H1 & H2)|(e & Hs & Ht)].
  - destruct (merge_readable P race image1 image2 w1 h1 w2 h2 H1 H2) as [Hs Ht].
    rewrite Hs, Ht.
    split; (split; [intros Hb; exists w1, h1, w2, h2; auto|]);
      intros (w1' & h1' & w2' & h2' & (H1' & _) & (H2' & _) & Hb);
      destruct H1 as (H1 & _), H2 as (H2 & _);
      rewrite H1 in H1'; rewrite H2 in H2';
      injection H1' as <- <-; injection H2' as <- <-; exact Hb.
  - rewrite Hs, Ht.
    split; (split; [discriminate|]);
      intros (w1 & h1 & w2 & h2 & H1 & H2 & Hb);
      destruct (merge_readable P race image1 image2 w1 h1 w2 h2 H1 H2) as [Hs' Ht'];
      congruence.
Qed.

(** X4: [mergeImages] is fulfilled exactly when the metadata of both images
    give a width and a height other than 0 and sharp renders the pipeline of
    the layout that the selector chooses for these sizes; the inline checks
    of the merge methods never reject what the selector accepted. *)
Theorem mergeImages_fulfilled_iff (P : Platform) (race : bool * bool)
    (image1 image2 buffer : Buffer) :
  mergeImages P race image1 image2 = inr buffer
  <-> exists w1 h1 w2 h2,
        readable_as P image1 w1 h1 /\ readable_as P image2 w2 h2
        /\ sharp_toBuffer P
             (layout (closerDirection (dimensions w1 h1) (dimensions w2 h2))
                image1 image2 w1 h1 w2 h2) = inr buffer.
Proof.
  split.
  - intros Hb.
    destruct (mergeImages_cases P race image1 image2)
      as [(e & He & _)|(w1 & h1 & w2 & h2 & H1 & H2)]; [congruence|].
    exists w1, h1, w2, h2. split; [exact H1|]. split; [exact H2|].
    rewrite <- (mergeImages_readable P race image1 image2 w1 h1 w2 h2 H1 H2).
    exact Hb.
  - intros (w1 & h1 & w2 & h2 & H1 & H2 & Hb).
    rewrite (mergeImages_readable P race image1 image2 w1 h1 w2 h2 H1 H2).
    exact Hb.
Qed.

(** X5: every reason with which [mergeImages] is rejected is the error of
    sharp reading the metadata of one of the two images, passed on as it
    is, or the invalid-metadata error for an image without a width or a
    height, or the error of sharp rendering the chosen layout. *)
Theorem mergeImages_rejection (P : Platform) (race : bool * bool)
    (image1 image2 : Buffer) (e : Error) :
  mergeImages P race image1 image2 = inl e ->
  sharp_metadata P image1 = inl e
  \/ sharp_metadata P image2 = inl e
  \/ (e = invalid_metadata
      /\ (lacks_dimensions P image1 \/ lacks_dimensions P image2))
  \/ (exists w1 h1 w2 h2,
        readable_as P image1 w1 h1 /\ readable_as P image2 w2 h2
        /\ sharp_toBuffer P
             (layout (closerDirection (dimensions w1 h1) (dimensions w2 h2))
                image1 image2 w1 h1 w2 h2) = inl e).
Proof.
  intros He.
  destruct (mergeImages_cases P race image1 image2)
    as [(e' & He' & Hwhy)|(w1 & h1 & w2 & h2 & H1 & H2)].
  - rewrite He in He'. injection He' as <-.
    destruct Hwhy as [H|[H|H]]; auto.
  - right. right. right. exists w1, h1, w2, h2.
    split; [exact H1|]. split; [exact H2|].
    rewrite <- (mergeImages_readable P race image1 image2 w1 h1 w2 h2 H1 H2).
    exact He.
Qed.

Lemma mergeImages_rejection_witness :
  sharp_metadata Demo.platform [] = inl (ExternalError "Input buffer is empty")
  \/ sharp_metadata Demo.platform (Demo.image 9 6)
     = inl (ExternalError "Input buffer is empty")
  \/ (ExternalError "Input buffer is empty" = invalid_metadata
      /\ (lacks_dimensions Demo.platform []
          \/ lacks_dimensions Demo.platform (Demo.image 9 6)))
  \/ (exists w1 h1 w2 h2,
        readable_as Demo.platform [] w1 h1
        /\ readable_as Demo.platform (Demo.image 9 6) w2 h2
        /\ sharp_toBuffer Demo.platform
             (layout (closerDirection (dimensions w1 h1) (dimensions w2 h2))
                [] (Demo.image 9 6) w1 h1 w2 h2)
           = inl (ExternalError "Input buffer is empty")).
Proof.
  apply (mergeImages_rejection Demo.platform (false, false) [] (Demo.image 9 6)).
  reflexivity.
Defined.

(** ** Jobs in which some pairs fail *)

Lemma pair_fulfilled_true (P : Platform) (self : ImageVideoProcessor)
    (sched : Schedule) (imagePairs : list ImagePair) (i : nat) :
  pair_fulfilled P self sched imagePairs i = true
  <-> exists pair, imagePairs !! i = Some pair /\ pair_succeeds P self sched i pair.
Proof.
  unfold pair_fulfilled. rewrite list_lookup_imap.
  destruct (imagePairs !! i) as [pair|] eqn:Hi; simpl.
  - destruct (mergePromise_effects P self sched i pair)
      as [[e He]|(buffer & Hmerge & Hwrite & He)]; rewrite He.
    + split; [discriminate|]. intros (pair' & [= <-] & Hok).
      rewrite (mergePromise_succeeds P self sched imagePairs i pair Hi Hok) in He.
      discriminate He.
    + split; [|reflexivity]. intros _. exists pair. split; [reflexivity|].
      exists buffer. auto.
  - split; [discriminate|]. intros (pair & Hpair & _). discriminate Hpair.
Qed.

Lemma pair_effects_fulfilled (P : Platform) (self : ImageVideoProcessor)
    (sched : Schedule) (imagePairs : list ImagePair) (order : list nat) :
  pair_effects (imap (mergePromise P self sched) imagePairs) order
  = frameWrite P self sched imagePairs
      <$> fulfilled_positions P self sched imagePairs order.
Proof.
  unfold pair_effects, fulfilled_positions.
  induction order as [|i order IH]; [reflexivity|].
  rewrite bind_cons, IH, filter_cons. clear IH.
  destruct (decide (pair_fulfilled P self sched imagePairs i = true)) as [Hok|Hno].
  - apply pair_fulfilled_true in Hok as (pair & Hi & Hok).
    rewrite list_lookup_imap, Hi. simpl.
    rewrite (mergePromise_succeeds P self sched imagePairs i pair Hi Hok).
    reflexivity.
  - rewrite list_lookup_imap.
    destruct (imagePairs !! i) as [pair|] eqn:Hi; [|reflexivity]. simpl.
    destruct (mergePromise_effects P self sched i pair)
      as [[e He]|(buffer & Hmerge & Hwrite & He)]; rewrite He; [reflexivity|].
    exfalso. apply Hno. apply pair_fulfilled_true. exists pair.
    split; [exact Hi|]. exists buffer. auto.
Qed.

(** The three shapes of the effects of a job. *)
Lemma job_shapes (P : Platform) (self : ImageVideoProcessor)
    (sched : Schedule) (imagePairs : list ImagePair) :
  let job := processImagesAndCreateVideo P self sched imagePairs in
  let writes := frameWrite P self sched imagePairs
                  <$> fulfilled_positions P self sched imagePairs (settle_order sched) in
  let command := encoderCommand self (outputDir self) in
  (exists e, fs_mkdir P (outputDir self) = inl e /\ job = ([], Rejected e))
  \/ (exists e, fs_mkdir P (outputDir self) = inr ()
        /\ first_rejection (settle_order sched)
             ((imap (mergePromise P self sched) imagePairs).*2) = Some e
        /\ job = (Mkdir (outputDir self) true :: writes, Rejected e))
  \/ (fs_mkdir P (outputDir self) = inr ()
      /\ first_rejection (settle_order sched)
           ((imap (mergePromise P self sched) imagePairs).*2) = None
      /\ job = (Mkdir (outputDir self) true :: writes ++ [FfmpegRun command],
                Fulfilled (PassThrough command))).
Proof.
  intros job writes command. subst job. unfold processImagesAndCreateVideo.
  destruct (fs_mkdir P (outputDir self)) as [e|[]]; [left; eauto|]. right.
  rewrite pair_effects_fulfilled. fold writes. unfold promise_all.
  destruct (first_rejection _ _) as [e|]; [left; eauto|right; auto].
Qed.

Lemma files_after_frame_writes (P : Platform) (self : ImageVideoProcessor)
    (sched : Schedule) (imagePairs : list ImagePair) (positions : list nat)
    (files : gmap string Buffer) :
  join_separates_frames P (outputDir self) ->
  NoDup positions ->
  files_after (frameWrite P self sched imagePairs <$> positions) files
  = list_to_map (frames P self sched imagePairs positions) ∪ files.
Proof.
  intros Hjoin Hnd.
  replace (frameWrite P self sched imagePairs <$> positions)
    with ((fun w : string * Buffer => WriteFile w.1 w.2)
            <$> frames P self sched imagePairs positions)
    by (unfold frames; rewrite <- list_fmap_compose; reflexivity).
  apply files_after_writes. rewrite frames_paths.
  pose proof (framePath_inj P self Hjoin) as Hinj.
  apply (NoDup_fmap_2 _). exact Hnd.
Qed.

(** The files after any job: the frames of the fulfilled pairs, over the
    files that were there. *)
Lemma job_files_any (P : Platform) (self : ImageVideoProcessor)
    (sched : Schedule) (imagePairs : list ImagePair) :
  join_separates_frames P (outputDir self) ->
  NoDup (settle_order sched) ->
  let job := processImagesAndCreateVideo P self sched imagePairs in
  (exists e, fs_mkdir P (outputDir self) = inl e
     /\ forall files, files_after job.1 files = files)
  \/ (fs_mkdir P (outputDir self) = inr ()
      /\ forall files,
           files_after job.1 files
           = list_to_map
               (frames P self sched imagePairs
                  (fulfilled_positions P self sched imagePairs (settle_order sched)))
             ∪ files).
Proof.
  intros Hjoin Hnd job.
  assert (Hnd' : NoDup (fulfilled_positions P self sched imagePairs (settle_order sched)))
    by (apply NoDup_filter; exact Hnd).
  subst job.
  destruct (job_shapes P self sched imagePairs)
    as [(e & Hmk & ->)|[(e & Hmk & _ & ->)|(Hmk & _ & ->)]]; cbn [fst].
  - left. exists e. split; [exact Hmk|]. reflexivity.
  - right. split; [exact Hmk|]. intros files.
    change (Mkdir ?d ?b :: ?l) with ([Mkdir d b] ++ l).
    rewrite files_after_app. cbn [files_after foldl apply_event].
    change (foldl apply_event files ?l) with (files_after l files).
    apply files_after_frame_writes; assumption.
  - right. split; [exact Hmk|]. intros files.
    change (Mkdir ?d ?b :: ?l) with ([Mkdir d b] ++ l).
    rewrite !files_after_app. cbn [files_after foldl apply_event].
    change (foldl apply_event files ?l) with (files_after l files).
    apply files_after_frame_writes; assumption.
Qed.

Lemma pair_fulfilled_race (P : Platform) (self : ImageVideoProcessor)
    (sched sched' : Schedule) (imagePairs : list ImagePair) (i : nat) :
  pair_fulfilled P self sched' imagePairs i = pair_fulfilled P self sched imagePairs i.
Proof.
  assert (Himp : forall s s',
            pair_fulfilled P self s imagePairs i = true ->
            pair_fulfilled P self s' imagePairs i = true).
  { intros s s' H. apply pair_fulfilled_true in H as (pair & Hi & Hok).
    apply pair_fulfilled_true. exists pair. split; [exact Hi|].
    apply (frame_race P self s s' imagePairs i pair Hi Hok). }
  destruct (pair_fulfilled P self sched imagePairs i) eqn:H1.
  - apply (Himp sched sched' H1).
  - destruct (pair_fulfilled P self sched' imagePairs i) eqn:H2; [|reflexivity].
    rewrite (Himp sched' sched H2) in H1. discriminate H1.
Qed.

(** The frames of the fulfilled pairs do not depend on the order of
    completion. *)
Lemma fulfilled_frames_order (P : Platform) (self : ImageVideoProcessor)
    (sched sched' : Schedule) (imagePairs : list ImagePair) :
  join_separates_frames P (outputDir self) ->
  NoDup (settle_order sched) ->
  settle_order sched' ≡ₚ settle_order sched ->
  (list_to_map
     (frames P self sched' imagePairs
        (fulfilled_positions P self sched' imagePairs (settle_order sched')))
   : gmap string Buffer)
  = list_to_map
      (frames P self sched imagePairs
         (fulfilled_positions P self sched imagePairs (settle_order sched))).
Proof.
  intros Hjoin Hnd Hperm.
  assert (Hnd' : NoDup (settle_order sched')) by (rewrite Hperm; exact Hnd).
  assert (Hpos : fulfilled_positions P self sched' imagePairs (settle_order sched')
                 ≡ₚ fulfilled_positions P self sched imagePairs (settle_order sched)).
  { unfold fulfilled_positions. rewrite Hperm.
    apply eq_subrelation; [apply _|]. apply list_filter_iff.
    intros i. rewrite (pair_fulfilled_race P self sched sched'). reflexivity. }
  apply list_to_map_proper.
  - rewrite frames_paths. pose proof (framePath_inj P self Hjoin) as Hinj.
    apply (NoDup_fmap_2 _), NoDup_filter, Hnd'.
  - unfold frames. rewrite Hpos.
    apply eq_subrelation; [apply _|]. apply list_fmap_ext. intros k i Hi.
    apply list_elem_of_lookup_2 in Hi. unfold fulfilled_positions in Hi.
    apply list_elem_of_filter in Hi as [Hok _].
    apply pair_fulfilled_true in Hok as (pair & Hpair & Hok).
    f_equal. apply (frame_race P self sched sched' imagePairs i pair Hpair Hok).
Qed.

Lemma written_paths_frameWrites (P : Platform) (self : ImageVideoProcessor)
    (sched : Schedule) (imagePairs : list ImagePair) (positions : list nat) :
  written_paths (frameWrite P self sched imagePairs <$> positions)
  = framePath P self <$> positions.
Proof.
  unfold written_paths.
  induction positions as [|i positions IH]; [reflexivity|].
  rewrite !fmap_cons. cbn [omap list_omap frameWrite]. rewrite IH. reflexivity.
Qed.

Lemma job_written_paths_any (P : Platform) (self : ImageVideoProcessor)
    (sched : Schedule) (imagePairs : list ImagePair) :
  let job := processImagesAndCreateVideo P self sched imagePairs in
  written_paths job.1 = []
  \/ written_paths job.1
     = framePath P self
         <$> fulfilled_positions P self sched imagePairs (settle_order sched).
Proof.
  intros job. subst job.
  destruct (job_shapes P self sched imagePairs)
    as [(e & _ & ->)|[(e & _ & _ & ->)|(_ & _ & ->)]]; cbn [fst].
  - left. reflexivity.
  - right. unfold written_paths. cbn [omap list_omap].
    apply written_paths_frameWrites.
  - right. unfold written_paths. cbn [omap list_omap]. rewrite omap_app.
    cbn [omap list_omap]. rewrite app_nil_r. apply written_paths_frameWrites.
Qed.

Lemma files_after_other (events : list Event) (files : gmap string Buffer)
    (path : string) :
  path ∉ written_paths events ->
  files_after events files !! path = files !! path.
Proof.
  unfold files_after, written_paths. revert files.
  induction events as [|ev events IH]; intros files Hnot; [reflexivity|].
  cbn [foldl]. destruct ev as [d b|p data|c]; cbn [omap list_omap] in Hnot;
    cbn [apply_event]; try (apply IH; exact Hnot).
  apply not_elem_of_cons in Hnot as [Hne Hnot].
  rewrite IH by exact Hnot. apply lookup_insert_ne. congruence.
Qed.

Lemma files_after_keeps (events : list Event) (files : gmap string Buffer)
    (path : string) :
  is_Some (files !! path) -> is_Some (files_after events files !! path).
Proof.
  unfold files_after. revert files.
  induction events as [|ev events IH]; intros files Hsome; [exact Hsome|].
  cbn [foldl]. apply IH. destruct ev as [d b|p data|c]; cbn [apply_event];
    try exact Hsome.
  rewrite lookup_insert_is_Some. destruct (decide (p = path)); auto.
Qed.

(** X6: with every pair in the order of completion, the call is fulfilled
    exactly when the directory can be made and the promise of every pair is
    fulfilled, and then with the stream that the encoder command pipes into;
    the promise it returns is never left pending. *)
Theorem job_fulfilled_iff (P : Platform) (self : ImageVideoProcessor)
    (sched : Schedule) (imagePairs : list ImagePair) (stream : ReadableStream) :
  settle_order sched ≡ₚ seq 0 (length imagePairs) ->
  let job := processImagesAndCreateVideo P self sched imagePairs in
  (job.2 = Fulfilled stream
   <-> fs_mkdir P (outputDir self) = inr ()
       /\ (forall i pair, imagePairs !! i = Some pair ->
             pair_succeeds P self sched i pair)
       /\ stream = PassThrough (encoderCommand self (outputDir self)))
  /\ job.2 <> Pending.
Proof.
  intros Hperm job. split.
  - split.
    + intros Hjob.
      destruct (job_fulfilled_inv P self sched imagePairs stream Hperm Hjob)
        as [Hmkdir Hall].
      split; [exact Hmkdir|]. split; [exact Hall|].
      subst job.
      rewrite (job_when_all_succeed P self sched imagePairs Hperm Hmkdir Hall) in Hjob.
      cbn [snd] in Hjob. congruence.
    + intros (Hmkdir & Hall & ->). subst job.
      rewrite (job_when_all_succeed P self sched imagePairs Hperm Hmkdir Hall).
      reflexivity.
  - subst job.
    destruct (job_shapes P self sched imagePairs)
      as [(e & _ & ->)|[(e & _ & _ & ->)|(_ & _ & ->)]]; discriminate.
Qed.

Lemma job_fulfilled_iff_witness :
  (processImagesAndCreateVideo Demo.platform Demo.processor
     (Demo.backwards 2) Demo.pairs_without_height).2
  <> Fulfilled (PassThrough (encoderCommand Demo.processor "/data/job")).
Proof.
  destruct (job_fulfilled_iff Demo.platform Demo.processor (Demo.backwards 2)
              Demo.pairs_without_height
              (PassThrough (encoderCommand Demo.processor "/data/job"))
              (reverse_Permutation (seq 0 2))) as [[Hif _] _].
  intros Hjob. destruct (Hif Hjob) as (_ & Hall & _).
  destruct (Hall 1%nat _ eq_refl) as (buffer & Hmerge & _).
  vm_compute in Hmerge. discriminate Hmerge.
Defined.

(** X7: every reason with which the call is rejected is the error of
    [fs.mkdir], or the reason with which [mergeImages] was rejected for one
    of the pairs, or the error of [fs.writeFile] for the frame of one of the
    pairs; the call adds no error of its own. *)
Theorem job_rejection_reason (P : Platform) (self : ImageVideoProcessor)
    (sched : Schedule) (imagePairs : list ImagePair) (e : Error) :
  (processImagesAndCreateVideo P self sched imagePairs).2 = Rejected e ->
  fs_mkdir P (outputDir self) = inl e
  \/ exists i pair,
       i ∈ settle_order sched /\ imagePairs !! i = Some pair
       /\ (mergeImages P (races sched i) (first pair) (second pair) = inl e
           \/ exists buffer,
                mergeImages P (races sched i) (first pair) (second pair) = inr buffer
                /\ fs_writeFile P (framePath P self i) buffer = inl e).
Proof.
  intros Hjob.
  destruct (job_shapes P self sched imagePairs)
    as [(e' & Hmk & Heq)|[(e' & _ & Hfirst & Heq)|(_ & _ & Heq)]];
    rewrite Heq in Hjob; cbn [snd] in Hjob; try discriminate Hjob;
    injection Hjob as ->.
  - left. exact Hmk.
  - right. apply first_rejection_Some in Hfirst as (i & Hi & Hl).
    rewrite list_lookup_fmap, list_lookup_imap in Hl.
    destruct (imagePairs !! i) as [pair|] eqn:Hpair; [|discriminate].
    exists i, pair. split; [exact Hi|]. split; [exact Hpair|].
    simpl in Hl. injection Hl as Hl. unfold mergePromise in Hl.
    destruct (mergeImages P (races sched i) (first pair) (second pair))
      as [e1|buffer]; [left; simpl in Hl; congruence|].
    right. exists buffer. split; [reflexivity|].
    destruct (fs_writeFile P (framePath P self i) buffer) as [e2|[]];
      simpl in Hl; congruence.
Qed.

Lemma job_rejection_reason_witness :
  exists i pair,
    i ∈ settle_order (Demo.in_order 2) /\ Demo.faulty_pairs !! i = Some pair
    /\ mergeImages Demo.platform (false, false) (first pair) (second pair)
       = inl (ExternalError "Input buffer is empty").
Proof.
  destruct (job_rejection_reason Demo.platform Demo.processor (Demo.in_order 2)
              Demo.faulty_pairs (ExternalError "Input buffer is empty") eq_refl)
    as [Hmk|(i & pair & Hi & Hpair & [Hmerge|(buffer & _ & Hwrite)])].
  - discriminate Hmk.
  - exists i, pair. auto.
  - discriminate Hwrite.
Defined.

(** X8: a pair that is merged and written has its frame in the directory
    after the call, under its own number, also when the call is rejected
    because of another pair: nothing cancels the promises of the other
    pairs. *)
Theorem frame_written_despite_rejection (P : Platform) (self : ImageVideoProcessor)
    (sched : Schedule) (imagePairs : list ImagePair) (files : gmap string Buffer)
    (i : nat) (pair : ImagePair) (buffer : Buffer) :
  join_separates_frames P (outputDir self) ->
  NoDup (settle_order sched) ->
  i ∈ settle_order sched ->
  fs_mkdir P (outputDir self) = inr () ->
  imagePairs !! i = Some pair ->
  mergeImages P (races sched i) (first pair) (second pair) = inr buffer ->
  fs_writeFile P (framePath P self i) buffer = inr () ->
  files_after (processImagesAndCreateVideo P self sched imagePairs).1 files
    !! join P (outputDir self) (pretty (i + 1)%nat +:+ ".jpg")
  = Some buffer.
Proof.
  intros Hjoin Hnd Hi Hmkdir Hpair Hmerge Hwrite.
  destruct (job_files_any P self sched imagePairs Hjoin Hnd)
    as [(e & Hmk & _)|(_ & Hfiles)]; [congruence|].
  rewrite Hfiles. apply lookup_union_Some_l. apply elem_of_list_to_map.
  - rewrite frames_paths. pose proof (framePath_inj P self Hjoin) as Hinj.
    apply (NoDup_fmap_2 _), NoDup_filter, Hnd.
  - unfold frames. apply list_elem_of_fmap. exists i. split.
    + unfold framePath, frame. rewrite Hpair, Hmerge. reflexivity.
    + unfold fulfilled_positions. apply list_elem_of_filter. split; [|exact Hi].
      apply pair_fulfilled_true. exists pair. split; [exact Hpair|].
      exists buffer. auto.
Qed.

Lemma frame_written_despite_rejection_witness :
  let job := processImagesAndCreateVideo Demo.platform Demo.processor
               (Demo.backwards 2) Demo.pairs_without_height in
  job.2 = Rejected invalid_metadata
  /\ files_after job.1 ∅ !! "/data/job/1.jpg"
     = Some [Demo.byte 19; Demo.byte 24; Demo.byte 0; Demo.byte 0;
             Demo.byte 10; Demo.byte 24; Demo.byte 10; Demo.byte 9;
             Demo.byte 9; Demo.byte 6].
Proof.
  split; [vm_compute; reflexivity|].
  apply (frame_written_despite_rejection Demo.platform Demo.processor
           (Demo.backwards 2) Demo.pairs_without_height ∅ 0%nat
           {| first := Demo.image 10 24; second := Demo.image 9 6 |}).
  - apply demo_join_separates_frames.
  - change (NoDup (reverse (seq 0 2))). rewrite reverse_Permutation. apply NoDup_seq.
  - change (0%nat ∈ reverse (seq 0 2)). rewrite reverse_Permutation.
    apply elem_of_seq. lia.
  - reflexivity.
  - reflexivity.
  - vm_compute. reflexivity.
  - reflexivity.
Defined.

Lemma written_path_origin (P : Platform) (self : ImageVideoProcessor)
    (sched : Schedule) (imagePairs : list ImagePair) (path : string) :
  path ∈ written_paths (processImagesAndCreateVideo P self sched imagePairs).1 ->
  exists i pair,
    i ∈ settle_order sched /\ imagePairs !! i = Some pair
    /\ pair_succeeds P self sched i pair /\ path = framePath P self i.
Proof.
  intros Hin.
  destruct (job_written_paths_any P self sched imagePairs) as [Heq|Heq];
    rewrite Heq in Hin; [apply elem_of_nil in Hin; destruct Hin|].
  apply list_elem_of_fmap in Hin as (i & -> & Hi).
  unfold fulfilled_positions in Hi. apply list_elem_of_filter in Hi as [Hok Hi].
  apply pair_fulfilled_true in Hok as (pair & Hpair & Hok).
  exists i, pair. auto.
Qed.

(** X9: whatever the outcome, the call writes no file but frames: every path
    it writes is the path numbered i+1 of a pair at a position i of the
    list whose merge and write succeeded, and no path is written twice. *)
Theorem only_frames_written (P : Platform) (self : ImageVideoProcessor)
    (sched : Schedule) (imagePairs : list ImagePair) :
  join_separates_frames P (outputDir self) ->
  NoDup (settle_order sched) ->
  let job := processImagesAndCreateVideo P self sched imagePairs in
  (forall path, path ∈ written_paths job.1 ->
     exists i pair,
       (i < length imagePairs)%nat /\ imagePairs !! i = Some pair
       /\ pair_succeeds P self sched i pair
       /\ path = join P (outputDir self) (pretty (i + 1)%nat +:+ ".jpg"))
  /\ NoDup (written_paths job.1)
  /\ (length (written_paths job.1) <= length (settle_order sched))%nat.
Proof.
  intros Hjoin Hnd job. split; [|split].
  - intros path Hin.
    destruct (written_path_origin P self sched imagePairs path Hin)
      as (i & pair & _ & Hpair & Hok & ->).
    exists i, pair. split; [exact (lookup_lt_Some _ _ _ Hpair)|]. auto.
  - subst job. destruct (job_written_paths_any P self sched imagePairs) as [->| ->];
      [apply NoDup_nil_2|].
    pose proof (framePath_inj P self Hjoin) as Hinj.
    apply (NoDup_fmap_2 _), NoDup_filter, Hnd.
  - subst job. destruct (job_written_paths_any P self sched imagePairs) as [->| ->];
      [simpl; lia|].
    rewrite length_fmap. apply length_filter.
Qed.

Lemma only_frames_written_witness :
  let job := processImagesAndCreateVideo Demo.platform Demo.processor
               (Demo.backwards 3) Demo.mixed_pairs in
  job.2 = Rejected invalid_metadata
  /\ written_paths job.1 = ["/data/job/3.jpg"; "/data/job/1.jpg"]
  /\ NoDup (written_paths job.1)
  /\ (exists i pair,
        (i < 3)%nat /\ Demo.mixed_pairs !! i = Some pair
        /\ pair_succeeds Demo.platform Demo.processor (Demo.backwards 3) i pair
        /\ "/data/job/3.jpg"
           = join Demo.platform "/data/job" (pretty (i + 1)%nat +:+ ".jpg")).
Proof.
  destruct (only_frames_written Demo.platform Demo.processor
              (Demo.backwards 3) Demo.mixed_pairs) as (Horigin & Hnodup & _).
  - apply demo_join_separates_frames.
  - change (NoDup (reverse (seq 0 3))). rewrite reverse_Permutation. apply NoDup_seq.
  - split; [vm_compute; reflexivity|]. split; [vm_compute; reflexivity|].
    split; [exact Hnodup|]. apply Horigin. vm_compute. left.
Defined.

(** X10: the call removes no file, whatever the cleanup option of the
    processor: a file that was in the directory is still there afterwards,
    and the frames numbered above the length of the list, left by an
    earlier and longer job, keep their contents. *)
Theorem stale_frames_survive (P : Platform) (self : ImageVideoProcessor)
    (sched : Schedule) (imagePairs : list ImagePair) (files : gmap string Buffer)
    (k : nat) :
  join_separates_frames P (outputDir self) ->
  (length imagePairs <= k)%nat ->
  let job := processImagesAndCreateVideo P self sched imagePairs in
  files_after job.1 files !! join P (outputDir self) (pretty (k + 1)%nat +:+ ".jpg")
  = files !! join P (outputDir self) (pretty (k + 1)%nat +:+ ".jpg")
  /\ (forall path, is_Some (files !! path) -> is_Some (files_after job.1 files !! path)).
Proof.
  intros Hjoin Hk job. split.
  - apply files_after_other. intros Hin.
    destruct (written_path_origin P self sched imagePairs _ Hin)
      as (i & pair & _ & Hpair & _ & Heq).
    apply lookup_lt_Some in Hpair.
    apply (framePath_inj P self Hjoin k i) in Heq. lia.
  - intros path. apply files_after_keeps.
Qed.

Lemma stale_frames_survive_witness :
  files_after
    (processImagesAndCreateVideo Demo.platform Demo.processor
       (Demo.in_order 3) Demo.pairs).1
    {[ "/data/job/4.jpg" := [Demo.byte 7] ]} !! "/data/job/4.jpg"
  = Some [Demo.byte 7].
Proof.
  destruct (stale_frames_survive Demo.platform Demo.processor (Demo.in_order 3)
              Demo.pairs {[ "/data/job/4.jpg" := [Demo.byte 7] ]} 3) as [Hstale _].
  - apply demo_join_separates_frames.
  - simpl. lia.
  - exact Hstale.
Defined.

(** X11: the files after the call do not depend on the order in which the
    promises settle, also when some pairs fail: two runs whose orders of
    completion list the same positions leave the same files. *)
Theorem files_independent_of_order (P : Platform) (self : ImageVideoProcessor)
    (sched sched' : Schedule) (imagePairs : list ImagePair)
    (files : gmap string Buffer) :
  join_separates_frames P (outputDir self) ->
  NoDup (settle_order sched) ->
  settle_order sched' ≡ₚ settle_order sched ->
  files_after (processImagesAndCreateVideo P self sched' imagePairs).1 files
  = files_after (processImagesAndCreateVideo P self sched imagePairs).1 files.
Proof.
  intros Hjoin Hnd Hperm.
  assert (Hnd' : NoDup (settle_order sched')) by (rewrite Hperm; exact Hnd).
  destruct (job_files_any P self sched imagePairs Hjoin Hnd)
    as [(e & Hmk & Hf)|(Hmk & Hf)];
    destruct (job_files_any P self sched' imagePairs Hjoin Hnd')
      as [(e' & Hmk' & Hf')|(Hmk' & Hf')];
    try (exfalso; congruence).
  - rewrite Hf, Hf'. reflexivity.
  - rewrite Hf, Hf'. f_equal.
    apply fulfilled_frames_order; assumption.
Qed.

Lemma files_independent_of_order_witness :
  let run sched :=
    files_after (processImagesAndCreateVideo Demo.platform Demo.processor
                   sched Demo.mixed_pairs).1 ∅ in
  run (Demo.backwards 3) = run (Demo.in_order 3)
  /\ is_Some (run (Demo.in_order 3) !! "/data/job/1.jpg")
  /\ run (Demo.in_order 3) !! "/data/job/2.jpg" = None
  /\ is_Some (run (Demo.in_order 3) !! "/data/job/3.jpg").
Proof.
  split.
  - apply files_independent_of_order.
    + apply demo_join_separates_frames.
    + apply NoDup_seq.
    + exact (reverse_Permutation (seq 0 3)).
  - split; [|split]; vm_compute; eauto.
Defined.

(** X12: running the same job again changes nothing: the files after two
    runs, in whatever orders the promises settle, are the files after the
    first run. *)
Theorem rerun_is_idempotent (P : Platform) (self : ImageVideoProcessor)
    (sched sched' : Schedule) (imagePairs : list ImagePair)
    (files : gmap string Buffer) :
  join_separates_frames P (outputDir self) ->
  NoDup (settle_order sched) ->
  settle_order sched' ≡ₚ settle_order sched ->
  files_after (processImagesAndCreateVideo P self sched' imagePairs).1
    (files_after (processImagesAndCreateVideo P self sched imagePairs).1 files)
  = files_after (processImagesAndCreateVideo P self sched imagePairs).1 files.
Proof.
  intros Hjoin Hnd Hperm.
  assert (Hnd' : NoDup (settle_order sched')) by (rewrite Hperm; exact Hnd).
  destruct (job_files_any P self sched imagePairs Hjoin Hnd)
    as [(e & Hmk & Hf)|(Hmk & Hf)];
    destruct (job_files_any P self sched' imagePairs Hjoin Hnd')
      as [(e' & Hmk' & Hf')|(Hmk' & Hf')];
    try (exfalso; congruence).
  - rewrite Hf', Hf. reflexivity.
  - rewrite Hf', Hf.
    rewrite (fulfilled_frames_order P self sched sched' imagePairs Hjoin Hnd Hperm).
    rewrite (assoc_L (∪)), (idemp_L (∪)). reflexivity.
Qed.

Lemma rerun_is_idempotent_witness :
  let run sched files :=
    files_after (processImagesAndCreateVideo Demo.platform Demo.processor
                   sched Demo.pairs).1 files in
  run (Demo.backwards 3) (run (Demo.in_order 3) ∅) = run (Demo.in_order 3) ∅.
Proof.
  apply rerun_is_idempotent.
  - apply demo_join_separates_frames.
  - apply NoDup_seq.
  - exact (reverse_Permutation (seq 0 3)).
Defined.

(** ** Two jobs *)

Lemma frames_map_disjoint (P : Platform) (selfA selfB : ImageVideoProcessor)
    (schedA schedB : Schedule) (pairsA pairsB : list ImagePair)
    (positionsA positionsB : list nat) :
  (forall i j, framePath P selfA i <> framePath P selfB j) ->
  (list_to_map (frames P selfA schedA pairsA positionsA) : gmap string Buffer)
  ##ₘ list_to_map (frames P selfB schedB pairsB positionsB).
Proof.
  intros Hdisj. apply map_disjoint_spec. intros path x y Hx Hy.
  apply elem_of_list_to_map_2 in Hx, Hy. unfold frames in Hx, Hy.
  apply list_elem_of_fmap in Hx as (i & [= -> _] & _).
  apply list_elem_of_fmap in Hy as (j & [= Heq _] & _).
  exact (Hdisj i j Heq).
Qed.

(** X13: two jobs whose frames have different paths, as jobs with
    different folders have, do not disturb each other: the files are the
    same whichever of the two runs first. *)
Theorem jobs_commute (P : Platform) (selfA selfB : ImageVideoProcessor)
    (schedA schedB : Schedule) (pairsA pairsB : list ImagePair)
    (files : gmap string Buffer) :
  join_separates_frames P (outputDir selfA) ->
  join_separates_frames P (outputDir selfB) ->
  NoDup (settle_order schedA) ->
  NoDup (settle_order schedB) ->
  (forall i j, framePath P selfA i <> framePath P selfB j) ->
  let jobA := processImagesAndCreateVideo P selfA schedA pairsA in
  let jobB := processImagesAndCreateVideo P selfB schedB pairsB in
  files_after jobB.1 (files_after jobA.1 files)
  = files_after jobA.1 (files_after jobB.1 files).
Proof.
  intros HjoinA HjoinB HndA HndB Hdisj jobA jobB. subst jobA jobB.
  destruct (job_files_any P selfA schedA pairsA HjoinA HndA)
    as [(eA & _ & HA)|(_ & HA)];
    destruct (job_files_any P selfB schedB pairsB HjoinB HndB)
      as [(eB & _ & HB)|(_ & HB)];
    rewrite ?HA, ?HB, ?HA; try reflexivity.
  rewrite !(assoc_L (∪)). f_equal. symmetry.
  apply map_union_comm, frames_map_disjoint, Hdisj.
Qed.

Lemma jobs_commute_witness :
  let other :=
    new_ImageVideoProcessor Demo.platform
      {| Options.folder := "other"; Options.fps := Some 30;
         Options.cleanup := Some true |} in
  let jobA := processImagesAndCreateVideo Demo.platform Demo.processor
                (Demo.in_order 3) Demo.pairs in
  let jobB := processImagesAndCreateVideo Demo.platform other
                (Demo.backwards 3) Demo.mixed_pairs in
  files_after jobB.1 (files_after jobA.1 ∅) = files_after jobA.1 (files_after jobB.1 ∅)
  /\ written_paths jobA.1
     = ["/data/job/1.jpg"; "/data/job/2.jpg"; "/data/job/3.jpg"]
  /\ written_paths jobB.1 = ["/data/other/3.jpg"; "/data/other/1.jpg"].
Proof.
  split; [|split; vm_compute; reflexivity].
  apply jobs_commute.
  - apply demo_join_separates_frames.
  - apply demo_join_separates_frames.
  - apply NoDup_seq.
  - change (NoDup (reverse (seq 0 3))). rewrite reverse_Permutation. apply NoDup_seq.
  - intros i j H. vm_compute in H. discriminate H.
Defined.

(** ** What the handlers write to the console *)

Lemma console_grows (st : VideoState) (evs : list EncoderEvent) (line : string) :
  line ∈ console st -> line ∈ console (encoder_run st evs).
Proof.
  unfold encoder_run. revert st.
  induction evs as [|ev evs IH]; intros st Hin; [exact Hin|].
  cbn [foldl]. apply IH.
  destruct ev; cbn; try exact Hin; apply elem_of_app; left; exact Hin.
Qed.

(** X14: every failure that ffmpeg reports is written to the console with
    its message, its standard output and its standard error, and every
    command line that ffmpeg reports at its start is written as well;
    later events erase nothing. *)
Theorem encoder_failure_is_logged (self : ImageVideoProcessor) (inputDir : string)
    (evs : list EncoderEvent) :
  let finished := encoder_run (createVideoFromImages self inputDir).2 evs in
  (forall err stdout stderr, OnError err stdout stderr ∈ evs ->
     "FFmpeg error: " +:+ message err ∈ console finished
     /\ "stdout: " +:+ stdout ∈ console finished
     /\ "stderr: " +:+ stderr ∈ console finished)
  /\ (forall commandLine, OnStart commandLine ∈ evs ->
        "Spawned FFmpeg with command: " +:+ commandLine ∈ console finished).
Proof.
  intros finished. subst finished.
  generalize (createVideoFromImages self inputDir).2 as st.
  unfold encoder_run.
  induction evs as [|ev evs IH]; intros st.
  - split; intros; exfalso; eapply elem_of_nil; eassumption.
  - cbn [foldl]. destruct (IH (encoder_step st ev)) as [IHe IHs]. split.
    + intros err stdout stderr Hin. apply elem_of_cons in Hin as [<-|Hin]; [|auto].
      repeat split; apply (console_grows _ evs); cbn; apply elem_of_app; right;
        apply list_elem_of_In; simpl; auto.
    + intros commandLine Hin. apply elem_of_cons in Hin as [<-|Hin]; [|auto].
      apply (console_grows _ evs). cbn. apply elem_of_app. right.
      apply list_elem_of_In. simpl. auto.
Qed.

(** ** When the encoder is started *)

(** X15: the encoder is started exactly when the call is fulfilled, then
    once and as the last effect of the call; a call that is rejected, for
    whatever reason, starts no encoder. *)
Theorem encoder_started_iff_fulfilled (P : Platform) (self : ImageVideoProcessor)
    (sched : Schedule) (imagePairs : list ImagePair) :
  let job := processImagesAndCreateVideo P self sched imagePairs in
  let command := encoderCommand self (outputDir self) in
  (encoder_runs job.1 = [command] <-> job.2 = Fulfilled (PassThrough command))
  /\ (encoder_runs job.1 = [] <-> exists e, job.2 = Rejected e)
  /\ (job.2 = Fulfilled (PassThrough command) -> last job.1 = Some (FfmpegRun command)).
Proof.
  intros job command. subst job.
  pose proof (job_encoder_runs P self sched imagePairs) as Hruns.
  destruct (job_shapes P self sched imagePairs)
    as [(e & _ & Heq)|[(e & _ & _ & Heq)|(_ & _ & Heq)]];
    rewrite Heq in Hruns |- *; cbn [fst snd] in Hruns |- *;
    destruct Hruns as [(stream & Hst & Hr)|(e' & Hst & Hr)];
    try discriminate Hst; rewrite ?Hr.
  - split; [split; discriminate|]. split; [split; eauto|discriminate].
  - split; [split; discriminate|]. split; [split; eauto|discriminate].
  - split; [split; reflexivity|]. split; [split; [discriminate|]|].
    + intros (e & He). discriminate He.
    + intros _. rewrite app_comm_cons. apply last_snoc.
Qed.

(** ** Which rejection the caller sees *)

Lemma first_rejection_app {A : Type} (before after : list nat) (ps : list (Result A)) :
  first_rejection (before ++ after) ps
  = match first_rejection before ps with
    | Some e => Some e
    | None => first_rejection after ps
    end.
Proof.
  induction before as [|i before IH]; [reflexivity|]. simpl.
  destruct (ps !! i) as [[e|a]|]; auto.
Qed.

(** X16: the call is rejected with the reason of the first promise of a
    pair to be rejected, in the order in which the promises settle: when the
    pairs that settle before the pair at position i are all fulfilled and
    that pair is rejected, its reason is the reason of the call, whatever
    happens to the pairs that settle later. *)
Theorem first_rejection_wins (P : Platform) (self : ImageVideoProcessor)
    (sched : Schedule) (imagePairs : list ImagePair)
    (before after : list nat) (i : nat) (pair : ImagePair) (e : Error) :
  fs_mkdir P (outputDir self) = inr () ->
  settle_order sched = before ++ i :: after ->
  (forall j, j ∈ before -> pair_fulfilled P self sched imagePairs j = true) ->
  imagePairs !! i = Some pair ->
  (mergePromise P self sched i pair).2 = inl e ->
  let job := processImagesAndCreateVideo P self sched imagePairs in
  job.2 = Rejected e /\ encoder_runs job.1 = [].
Proof.
  intros Hmkdir Horder Hbefore Hpair Hrej job.
  assert (Hfirst : first_rejection (settle_order sched)
                     ((imap (mergePromise P self sched) imagePairs).*2) = Some e).
  { rewrite Horder, first_rejection_app.
    assert (Hnone : first_rejection before
                      ((imap (mergePromise P self sched) imagePairs).*2) = None).
    { apply first_rejection_None. intros j e' Hj Hl.
      specialize (Hbefore j Hj). unfold pair_fulfilled in Hbefore.
      rewrite list_lookup_fmap in Hl.
      destruct (imap (mergePromise P self sched) imagePairs !! j) as [[evs [e''|u]]|];
        simpl in Hl; congruence. }
    rewrite Hnone. simpl.
    rewrite list_lookup_fmap, list_lookup_imap, Hpair. simpl. rewrite Hrej.
    reflexivity. }
  assert (Hjob : job.2 = Rejected e).
  { subst job.
    destruct (job_shapes P self sched imagePairs)
      as [(e' & Hmk & _)|[(e' & _ & Hfirst' & ->)|(_ & Hfirst' & _)]];
      [congruence| |congruence].
    cbn [snd]. congruence. }
  split; [exact Hjob|].
  destruct (job_encoder_runs P self sched imagePairs)
    as [(stream & Hstream & _)|(e' & _ & Hruns)]; [|exact Hruns].
  fold job in Hstream. rewrite Hjob in Hstream. discriminate Hstream.
Qed.

Lemma first_rejection_wins_witness :
  (processImagesAndCreateVideo Demo.platform Demo.processor
     (Demo.in_order 2) Demo.pairs_without_height).2
  = Rejected invalid_metadata.
Proof.
  refine (proj1 (first_rejection_wins Demo.platform Demo.processor
                   (Demo.in_order 2) Demo.pairs_without_height [0%nat] [] 1%nat
                   {| first := Demo.image 100 200; second := [Demo.byte 3] |}
                   invalid_metadata _ _ _ _ _));
    try reflexivity.
  intros j Hj. apply list_elem_of_singleton in Hj as ->. vm_compute. reflexivity.
Defined.

(** ** The selector on small images *)

Lemma closerDirection_exact_small_witness :
  closerDirection (dimensions 2 8) (dimensions 2 8) = HORIZONTAL
  /\ horizontal_strictly_closer 2 8 2 8.
Proof.
  assert (Hcode : closerDirection (dimensions 2 8) (dimensions 2 8) = HORIZONTAL)
    by (vm_compute; reflexivity).
  split; [exact Hcode|].
  apply (closerDirection_exact_small 2 8 2 8); [lia .. | exact Hcode].
Defined.

(** ** Images whose dimensions cannot be determined *)

Lemma first_rejection_split {A : Type} (order : list nat) (ps : list (Result A))
    (e : Error) :
  first_rejection order ps = Some e ->
  exists before k after,
    order = before ++ k :: after /\ ps !! k = Some (inl e)
    /\ first_rejection before ps = None.
Proof.
  induction order as [|i order IH]; simpl; [discriminate|].
  destruct (ps !! i) as [[e'|a]|] eqn:Hi.
  - intros [= ->]. exists [], i, order. auto.
  - intros H. destruct (IH H) as (before & k & after & -> & Hk & Hnone).
    exists (i :: before), k, after. simpl. rewrite Hi. auto.
  - intros H. destruct (IH H) as (before & k & after & -> & Hk & Hnone).
    exists (i :: before), k, after. simpl. rewrite Hi. auto.
Qed.

Lemma getImageDimensions_undetermined (P : Platform) (image : Buffer) :
  dimensions_undetermined P image ->
  exists r, getImageDimensions P image = inl r
    /\ (lacks_dimensions P image -> r = invalid_metadata)
    /\ (forall e0, sharp_metadata P image = inl e0 -> r = e0).
Proof.
  intros [[e He]|Hlacks].
  - exists e. split; [unfold getImageDimensions; rewrite He; reflexivity|].
    split; [|congruence]. intros (m & Hm & _). congruence.
  - exists invalid_metadata. split; [apply getImageDimensions_lacking, Hlacks|].
    split; [reflexivity|]. destruct Hlacks as (m & Hm & _). congruence.
Qed.

Lemma getImageDimensions_readable (P : Platform) (image : Buffer) (w h : Z) :
  readable_as P image w h ->
  getImageDimensions P image = inr (dimensions w h).
Proof.
  intros (Hm & Hw & Hh). unfold getImageDimensions. rewrite Hm.
  cbn [mbind Result_bind meta_width meta_height falsy].
  destruct (Z.eqb_spec w 0); [congruence|].
  destruct (Z.eqb_spec h 0); [congruence|]. reflexivity.
Qed.

Lemma mergePromise_undetermined (P : Platform) (self : ImageVideoProcessor)
    (sched : Schedule) (i : nat) (pair : ImagePair) (image : Buffer) :
  image = first pair \/ image = second pair ->
  dimensions_undetermined P image ->
  exists e, mergePromise P self sched i pair = ([], inl e).
Proof.
  intros Hwhich Hund.
  destruct (getImageDimensions_undetermined P image Hund) as (r & Hr & _).
  destruct (promise_all2_rejects (races sched i).1
              (getImageDimensions P (first pair)) (getImageDimensions P (second pair)))
    as [e He].
  { destruct Hwhich as [<-|<-]; eauto. }
  exists e. unfold mergePromise, mergeImages, determineMergeDirection.
  rewrite He. reflexivity.
Qed.

(** The pair of an image that is the only one at fault is rejected with the
    reason of that image. *)
Lemma mergePromise_single_fault (P : Platform) (self : ImageVideoProcessor)
    (sched : Schedule) (i : nat) (pair : ImagePair) (image : Buffer) (r : Error) :
  image = first pair \/ image = second pair ->
  getImageDimensions P image = inl r ->
  (forall other, other = first pair \/ other = second pair ->
     other = image \/ exists w h, readable_as P other w h) ->
  mergePromise P self sched i pair = ([], inl r).
Proof.
  intros Hwhich Hr Hothers.
  assert (Hdims : forall other, other = first pair \/ other = second pair ->
            getImageDimensions P other = inl r
            \/ exists d, getImageDimensions P other = inr d).
  { intros other Ho. destruct (Hothers other Ho) as [->|(w & h & Hread)]; [auto|].
    right. exists (dimensions w h). apply getImageDimensions_readable, Hread. }
  assert (Hone : getImageDimensions P (first pair) = inl r
                 \/ getImageDimensions P (second pair) = inl r)
    by (destruct Hwhich as [<-|<-]; auto).
  unfold mergePromise, mergeImages, determineMergeDirection.
  destruct (Hdims (first pair) (or_introl eq_refl)) as [H1|[d1 H1]];
    destruct (Hdims (second pair) (or_intror eq_refl)) as [H2|[d2 H2]];
    rewrite H1, H2; cbn [promise_all2 mbind Result_bind];
    try destruct (races sched i).1; try reflexivity.
  all: destruct Hone as [Hone|Hone]; congruence.
Qed.

(** C6, amended: if the width or the height of any input image cannot be
    determined, because sharp rejects the read of its metadata or because
    the metadata give no width or no height, the call is rejected and the
    encoder is never started.  When the directory cannot be made, the reason
    is the error of [fs.mkdir].  Otherwise the reason is the one of the
    promise of a pair that is rejected first in the order of completion, all
    pairs that settle before it being fulfilled; it is the invalid-metadata
    error when no pair is rejected for another reason; and when that image
    is the only fault, it is the invalid-metadata error if the metadata lack
    a dimension and the error of sharp, not wrapped, if sharp cannot read
    the metadata. *)
Theorem missing_dimensions_reject_job (P : Platform) (self : ImageVideoProcessor)
    (sched : Schedule) (imagePairs : list ImagePair)
    (i : nat) (pair : ImagePair) (image : Buffer) :
  settle_order sched ≡ₚ seq 0 (length imagePairs) ->
  imagePairs !! i = Some pair ->
  image = first pair \/ image = second pair ->
  dimensions_undetermined P image ->
  let job := processImagesAndCreateVideo P self sched imagePairs in
  (exists e, job.2 = Rejected e
     /\ (forall e0, fs_mkdir P (outputDir self) = inl e0 -> e = e0)
     /\ (fs_mkdir P (outputDir self) = inr () ->
         (exists before k after p,
            settle_order sched = before ++ k :: after
            /\ (forall j, j ∈ before ->
                  pair_fulfilled P self sched imagePairs j = true)
            /\ imagePairs !! k = Some p
            /\ (mergePromise P self sched k p).2 = inl e)
         /\ ((forall j p e', imagePairs !! j = Some p ->
                (mergePromise P self sched j p).2 = inl e' -> e' = invalid_metadata) ->
             e = invalid_metadata)
         /\ ((forall j p, j <> i -> imagePairs !! j = Some p ->
                pair_succeeds P self sched j p) ->
             (forall other, other = first pair \/ other = second pair ->
                other = image \/ exists w h, readable_as P other w h) ->
             (lacks_dimensions P image -> e = invalid_metadata)
             /\ (forall e0, sharp_metadata P image = inl e0 -> e = e0))))
  /\ encoder_runs job.1 = [].
Proof.
  intros Hperm Hi Hwhich Hund job.
  assert (Hrej : exists e, job.2 = Rejected e
     /\ (forall e0, fs_mkdir P (outputDir self) = inl e0 -> e = e0)
     /\ (fs_mkdir P (outputDir self) = inr () ->
         (exists before k after p,
            settle_order sched = before ++ k :: after
            /\ (forall j, j ∈ before ->
                  pair_fulfilled P self sched imagePairs j = true)
            /\ imagePairs !! k = Some p
            /\ (mergePromise P self sched k p).2 = inl e)
         /\ ((forall j p e', imagePairs !! j = Some p ->
                (mergePromise P self sched j p).2 = inl e' -> e' = invalid_metadata) ->
             e = invalid_metadata)
         /\ ((forall j p, j <> i -> imagePairs !! j = Some p ->
                pair_succeeds P self sched j p) ->
             (forall other, other = first pair \/ other = second pair ->
                other = image \/ exists w h, readable_as P other w h) ->
             (lacks_dimensions P image -> e = invalid_metadata)
             /\ (forall e0, sharp_metadata P image = inl e0 -> e = e0)))).
  { subst job.
    destruct (job_shapes P self sched imagePairs)
      as [(e & Hmk & ->)|[(e & Hmk & Hfirst & ->)|(_ & Hfirst & _)]].
    - exists e. split; [reflexivity|]. split; [congruence|]. congruence.
    - exists e. split; [reflexivity|]. split; [congruence|]. intros _.
      apply first_rejection_split in Hfirst
        as (before & k & after & Horder & Hk & Hnone).
      rewrite list_lookup_fmap, list_lookup_imap in Hk.
      destruct (imagePairs !! k) as [p|] eqn:Hp; [|discriminate].
      simpl in Hk. injection Hk as Hk.
      split; [|split].
      + exists before, k, after, p. split; [exact Horder|].
        split; [|split; [exact Hp | exact Hk]].
        intros j Hj. apply pair_fulfilled_true.
        assert (Hin : j ∈ settle_order sched)
          by (rewrite Horder; apply elem_of_app; left; exact Hj).
        apply (settle_order_complete _ imagePairs) in Hin as [pj Hpj];
          [|exact Hperm].
        exists pj. split; [exact Hpj|]. apply mergePromise_fulfilled.
        intros e' He'. rewrite first_rejection_None in Hnone.
        apply (Hnone j e' Hj).
        rewrite list_lookup_fmap, list_lookup_imap, Hpj. simpl. rewrite He'.
        reflexivity.
      + intros Honly. exact (Honly k p e Hp Hk).
      + intros Hothers Hreadable.
        destruct (getImageDimensions_undetermined P image Hund)
          as (r & Hr & Hlack & Hsharp).
        assert (Heq : e = r).
        { destruct (decide (k = i)) as [->|Hne].
          - rewrite Hi in Hp. injection Hp as <-.
            rewrite (mergePromise_single_fault P self sched i pair image r
                       Hwhich Hr Hreadable) in Hk.
            simpl in Hk. congruence.
          - pose proof (Hothers k p Hne Hp) as Hok.
            rewrite (mergePromise_succeeds P self sched imagePairs k p Hp Hok) in Hk.
            discriminate Hk. }
        rewrite Heq. split; assumption.
    - exfalso. rewrite first_rejection_None in Hfirst.
      destruct (mergePromise_undetermined P self sched i pair image Hwhich Hund)
        as [e He].
      apply (Hfirst i e).
      + apply (settle_order_complete _ imagePairs); [exact Hperm|]. eauto.
      + rewrite list_lookup_fmap, list_lookup_imap, Hi. simpl. rewrite He.
        reflexivity. }
  split; [exact Hrej|].
  destruct Hrej as (e & He & _).
  destruct (job_encoder_runs P self sched imagePairs)
    as [(stream & Hstream & _)|(e' & _ & Hruns)]; [|exact Hruns].
  fold job in Hstream. rewrite He in Hstream. discriminate Hstream.
Qed.

Lemma missing_dimensions_reject_job_witness :
  let unreadable := processImagesAndCreateVideo Demo.platform Demo.processor
                      (Demo.in_order 2) Demo.pairs_unreadable in
  let without_height := processImagesAndCreateVideo Demo.platform Demo.processor
                          (Demo.backwards 2) Demo.pairs_without_height in
  (unreadable.2 = Rejected (ExternalError "Input buffer is empty")
   /\ encoder_runs unreadable.1 = [])
  /\ (without_height.2 = Rejected invalid_metadata
      /\ encoder_runs without_height.1 = []).
Proof.
  split.
  - destruct (missing_dimensions_reject_job Demo.platform Demo.processor
                (Demo.in_order 2) Demo.pairs_unreadable 1%nat
                {| first := []; second := Demo.image 9 6 |} [])
      as [(e & He & _ & Hreason) Hruns].
    + reflexivity.
    + reflexivity.
    + left. reflexivity.
    + left. eexists. reflexivity.
    + split; [|exact Hruns]. rewrite He. f_equal.
      destruct (Hreason eq_refl) as (_ & _ & Hsingle).
      apply Hsingle; [| |reflexivity].
      * intros [|[|j]] p Hj; simpl; intros [= <-]; [|congruence].
        eexists. split; vm_compute; reflexivity.
      * intros other [->| ->]; [left; reflexivity|].
        right. exists 9, 6. repeat split; discriminate.
  - destruct (missing_dimensions_reject_job Demo.platform Demo.processor
                (Demo.backwards 2) Demo.pairs_without_height 1%nat
                {| first := Demo.image 100 200; second := [Demo.byte 3] |}
                [Demo.byte 3]) as [(e & He & _ & Hreason) Hruns].
    + exact (reverse_Permutation (seq 0 2)).
    + reflexivity.
    + right. reflexivity.
    + right. eexists. split; reflexivity.
    + split; [|exact Hruns]. rewrite He. f_equal.
      destruct (Hreason eq_refl) as (_ & Honly & _). apply Honly.
      intros [|[|j]] p e'; simpl; intros [= <-]; vm_compute;
        intros [= <-]; reflexivity.
Defined.
